(** * nuchat: the float FIFO of the loopback programs and the stop entry points

    The five loopback programs of the repository (ALSA, macOS VoiceProcessingIO,
    iOS, Android/Oboe, WASAPI) each carry their own copy of [struct FloatFIFO].
    The copies agree statement by statement; the macOS copy additionally
    returns the frame count from [push] and [pop], so that is the one embedded
    here.  Samples are never computed with, only copied and zero-filled, so a
    [float] is represented by its IEEE-754 binary32 bit pattern.  Calls are
    taken one at a time (the single-threaded discipline of the testable
    properties); the memory orders of the atomic loads and stores then play
    no part.

    Beside the FIFO the development embeds its callers in the macOS program
    ([print_error], [InputCallback], [RenderCallback]) and in the ALSA
    program (the loop bodies of [captureThread] and [playbackThread]), with
    what the audio libraries return taken as input, and the stop entry
    points of the iOS and Android programs. *)

From Stdlib Require Import ZArith Lia String Ascii DecimalString.
From stdpp Require Import base option list.
Local Open Scope Z_scope.

(** ** [uint32_t] arithmetic, wrap-around written out *)

Module U32.
Definition modulus : Z := 2 ^ 32.
Definition wrap (x : Z) : Z := x mod modulus.
Definition add (a b : Z) : Z := wrap (a + b).
Definition sub (a b : Z) : Z := wrap (a - b).
Definition shl1 (a : Z) : Z := wrap (Z.shiftl a 1).
Definition in_range (x : Z) : Prop := 0 <= x < modulus.
End U32.

(** ** Samples *)

Definition float32 := Z.

(** What [memset(_, 0, _)] and [resize] leave in a float slot: +0.0f. *)
Definition silence : float32 := 0.

(** ** [struct FloatFIFO] *)

Record FloatFIFO := mkFloatFIFO {
  buf : list float32;   (* std::vector<float> buf *)
  w : Z;                (* std::atomic<uint32_t> w *)
  r : Z;                (* std::atomic<uint32_t> r *)
  mask : Z              (* uint32_t mask *)
}.

(** [uint32_t sz = 1; while (sz < framesPow2) sz <<= 1;]
    The loop is run on fuel; [None] is the loop still running. *)
Fixpoint round_up_pow2 (fuel : nat) (framesPow2 sz : Z) : option Z :=
  match fuel with
  | O => None
  | S fuel' =>
      if sz <? framesPow2
      then round_up_pow2 fuel' framesPow2 (U32.shl1 sz)
      else Some sz
  end.

(** After 32 shifts [sz] is 0 and stays 0, so 33 rounds decide the loop. *)
Definition ctor_fuel : nat := 33.

(** [explicit FloatFIFO(uint32_t framesPow2)] *)
Definition FloatFIFO_new (framesPow2 : Z) : option FloatFIFO :=
  match round_up_pow2 ctor_fuel framesPow2 1 with
  | None => None
  | Some sz =>
      Some {| buf := replicate (Z.to_nat sz) silence;
              w := 0; r := 0;
              mask := U32.sub sz 1 |}
  end.

(** [for (uint32_t i = 0; i < n; ++i) buf[(wi + i) & mask] = src[i];]
    [cnt] is the number of rounds left, [i] the loop variable.  Reading
    [src] or writing [buf] out of bounds is undefined behaviour: [None]. *)
Fixpoint push_loop (cnt : nat) (i wi msk : Z) (src b : list float32)
  : option (list float32) :=
  match cnt with
  | O => Some b
  | S cnt' =>
      match src !! Z.to_nat i with
      | None => None
      | Some x =>
          let slot := Z.to_nat (Z.land (U32.add wi i) msk) in
          if decide (slot < length b)%nat
          then push_loop cnt' (i + 1) wi msk src (<[slot := x]> b)
          else None
      end
  end.

(** [uint32_t freeFrames = ((mask + 1) - (wi - ri)) & mask;] *)
Definition freeFrames (s : FloatFIFO) : Z :=
  Z.land (U32.sub (U32.add (mask s) 1) (U32.sub (w s) (r s))) (mask s).

(** [uint32_t push(const float* src, uint32_t n)] *)
Definition push (s : FloatFIFO) (src : list float32) (n : Z)
  : option (FloatFIFO * Z) :=
  let wi := w s in
  let n := if n >? freeFrames s then freeFrames s else n in
  match push_loop (Z.to_nat n) 0 wi (mask s) src (buf s) with
  | None => None
  | Some b =>
      Some ({| buf := b;
               w := Z.land (U32.add wi n) (mask s);
               r := r s;
               mask := mask s |}, n)
  end.

(** [for (uint32_t i = 0; i < got; ++i) dst[i] = buf[(ri + i) & mask];] *)
Fixpoint pop_loop (cnt : nat) (i ri msk : Z) (b dst : list float32)
  : option (list float32) :=
  match cnt with
  | O => Some dst
  | S cnt' =>
      match b !! Z.to_nat (Z.land (U32.add ri i) msk) with
      | None => None
      | Some x =>
          if decide (Z.to_nat i < length dst)%nat
          then pop_loop cnt' (i + 1) ri msk b (<[Z.to_nat i := x]> dst)
          else None
      end
  end.

(** [std::memset(dst + got, 0, cnt * sizeof(float))] *)
Definition zero_fill (dst : list float32) (got cnt : nat)
  : option (list float32) :=
  if decide (got + cnt <= length dst)%nat
  then Some (take got dst ++ replicate cnt silence ++ drop (got + cnt) dst)
  else None.

(** [uint32_t avail = (wi - ri) & mask;] *)
Definition avail (s : FloatFIFO) : Z :=
  Z.land (U32.sub (w s) (r s)) (mask s).

(** [uint32_t pop(float* dst, uint32_t n)]; the result carries the FIFO,
    the caller's buffer and the returned count. *)
Definition pop (s : FloatFIFO) (dst : list float32) (n : Z)
  : option (FloatFIFO * list float32 * Z) :=
  let ri := r s in
  let got := if n <=? avail s then n else avail s in
  match pop_loop (Z.to_nat got) 0 ri (mask s) (buf s) dst with
  | None => None
  | Some dst1 =>
      let s' := {| buf := buf s;
                   w := w s;
                   r := Z.land (U32.add ri got) (mask s);
                   mask := mask s |} in
      if got <? n
      then match zero_fill dst1 (Z.to_nat got) (Z.to_nat (n - got)) with
           | None => None
           | Some dst2 => Some (s', dst2, got)
           end
      else Some (s', dst1, got)
  end.

(** ** Observations on a FIFO *)

(** The physical slot of a logical index: [idx & mask]. *)
Definition slot (s : FloatFIFO) (idx : Z) : nat :=
  Z.to_nat (Z.land (U32.wrap idx) (mask s)).

(** The [cnt] frames the ring holds from logical index [from] onwards. *)
Definition ring_read (s : FloatFIFO) (from : Z) (cnt : nat) : list float32 :=
  (fun i : nat => default silence (buf s !! slot s (from + Z.of_nat i)))
    <$> seq 0 cnt.

(** The frames a [pop] can deliver, oldest first. *)
Definition readable (s : FloatFIFO) : list float32 :=
  ring_read s (r s) (Z.to_nat (avail s)).

(** The capacity N. *)
Definition capacity (s : FloatFIFO) : Z := Z.of_nat (length (buf s)).

(** What the constructor establishes and [push]/[pop] keep: [mask] is
    [2^k - 1], the storage has [2^k] slots, the indices are [uint32_t]. *)
Definition wf (s : FloatFIFO) : Prop :=
  exists k : Z,
    0 <= k <= 31 /\ mask s = 2 ^ k - 1 /\ capacity s = 2 ^ k /\
    U32.in_range (w s) /\ U32.in_range (r s).

(** An idle FIFO: equal indices, already masked. *)
Definition idle (s : FloatFIFO) : Prop :=
  wf s /\ w s = r s /\ 0 <= w s <= mask s.

(** Concrete FIFOs: what the constructor returns for 8 and for 4, and two
    hand-built ones with frames in the ring. *)
Definition fresh8 : FloatFIFO := mkFloatFIFO (replicate 8 silence) 0 0 7.
Definition fresh4 : FloatFIFO := mkFloatFIFO (replicate 4 silence) 0 0 3.

(** Capacity 8 holding the four frames 11, 22, 33, 44. *)
Definition four_of_eight : FloatFIFO :=
  mkFloatFIFO [11; 22; 33; 44; 0; 0; 0; 0] 4 0 7.

(** Capacity 4 holding the frame 11 in slot 0. *)
Definition one_of_four : FloatFIFO := mkFloatFIFO [11; 0; 0; 0] 1 0 3.

(** ** Sequences of calls from one producer and one consumer *)

Inductive call :=
| CallPush (src : list float32) (n : Z)
| CallPop (dst : list float32) (n : Z).

(** What a call did: the arguments, the buffer the caller is left with,
    and the returned count. *)
Inductive event :=
| Pushed (src : list float32) (n k : Z)
| Popped (dst' : list float32) (n got : Z).

Definition step (s : FloatFIFO) (c : call) : option (FloatFIFO * event) :=
  match c with
  | CallPush src n =>
      match push s src n with
      | Some (s', k) => Some (s', Pushed src n k)
      | None => None
      end
  | CallPop dst n =>
      match pop s dst n with
      | Some (s', dst', got) => Some (s', Popped dst' n got)
      | None => None
      end
  end.

Fixpoint run (s : FloatFIFO) (cs : list call)
  : option (FloatFIFO * list event) :=
  match cs with
  | [] => Some (s, [])
  | c :: cs' =>
      match step s c with
      | None => None
      | Some (s', e) =>
          match run s' cs' with
          | None => None
          | Some (s'', es) => Some (s'', e :: es)
          end
      end
  end.

(** A call within its contract: a [uint32_t] count that does not exceed
    the caller's array. *)
Definition call_ok (c : call) : Prop :=
  match c with
  | CallPush src n => U32.in_range n /\ n <= Z.of_nat (length src)
  | CallPop dst n => U32.in_range n /\ n <= Z.of_nat (length dst)
  end.

(** Frames accepted by the pushes of a log, in call order: of each [src]
    the first [k] frames, [k] being what [push] returned. *)
Fixpoint accepted_frames (log : list event) : list float32 :=
  match log with
  | [] => []
  | Pushed src _ k :: log' => take (Z.to_nat k) src ++ accepted_frames log'
  | Popped _ _ _ :: log' => accepted_frames log'
  end.

(** Real frames handed out by the pops of a log, in call order: of each
    destination the first [got] frames. *)
Fixpoint real_frames (log : list event) : list float32 :=
  match log with
  | [] => []
  | Pushed _ _ _ :: log' => real_frames log'
  | Popped dst' _ got :: log' => take (Z.to_nat got) dst' ++ real_frames log'
  end.

(** Sum of the counts returned by [push]. *)
Fixpoint accepted_count (log : list event) : Z :=
  match log with
  | [] => 0
  | Pushed _ _ k :: log' => k + accepted_count log'
  | Popped _ _ _ :: log' => accepted_count log'
  end.

(** Sum of the counts returned by [pop]. *)
Fixpoint returned_count (log : list event) : Z :=
  match log with
  | [] => 0
  | Pushed _ _ _ :: log' => returned_count log'
  | Popped _ _ got :: log' => got + returned_count log'
  end.

(** Every pop of the log left its first [n] destination slots as real
    frames followed by silence only. *)
Definition pop_padded (e : event) : Prop :=
  match e with
  | Pushed _ _ k => True
  | Popped dst' n got =>
      0 <= got <= n /\
      take (Z.to_nat n) dst' =
        take (Z.to_nat got) dst' ++ replicate (Z.to_nat (n - got)) silence
  end.

(** Every push of the log accepted a front part of what it was given. *)
Definition push_clipped (e : event) : Prop :=
  match e with
  | Pushed src n k => 0 <= k <= n
  | Popped _ _ _ => True
  end.

(** ** The stop entry points *)

(** The session states of the specification. *)
Inductive SessionState := Stopped | Starting | Running | Stopping | Failed.

Module IOS.
(** An [AudioUnit] handle; [nullptr] is [None] below. *)
Definition AudioUnit := Z.

(** The AudioToolbox calls [StopVoiceLoopback] makes. *)
Inductive toolbox_call :=
| AudioOutputUnitStop (u : AudioUnit)
| AudioUnitUninitialize (u : AudioUnit)
| AudioComponentInstanceDispose (u : AudioUnit).

(** The global [gAudioUnit] and the calls issued so far, oldest first. *)
Record world := mkWorld {
  gAudioUnit : option AudioUnit;
  issued : list toolbox_call
}.

(** [void StopVoiceLoopback()] *)
Definition StopVoiceLoopback (wd : world) : world :=
  match gAudioUnit wd with
  | Some u =>
      {| gAudioUnit := None;
         issued := issued wd ++ [AudioOutputUnitStop u;
                                 AudioUnitUninitialize u;
                                 AudioComponentInstanceDispose u] |}
  | None => wd
  end.

(** The session is stopped when no audio unit is held. *)
Definition session (wd : world) : SessionState :=
  match gAudioUnit wd with
  | None => Stopped
  | Some _ => Running
  end.
End IOS.

Module Android.
Section Oboe.
(** The state of an [oboe::AudioStream] and its [requestStop] are
    Oboe's; [FullDuplex::stop] discards the result of [requestStop]. *)
Variable AudioStream : Type.
Variable requestStop : AudioStream -> AudioStream.
Variable stream_stopped : AudioStream -> bool.

(** The two [std::shared_ptr<AudioStream>]; an empty pointer is [None]. *)
Record FullDuplex := mkFullDuplex {
  inputStream : option AudioStream;
  outputStream : option AudioStream
}.

(** [void stop()] *)
Definition stop (d : FullDuplex) : FullDuplex :=
  {| inputStream :=
       match inputStream d with
       | Some a => Some (requestStop a)
       | None => None
       end;
     outputStream :=
       match outputStream d with
       | Some a => Some (requestStop a)
       | None => None
       end |}.

Definition opt_stopped (o : option AudioStream) : bool :=
  match o with
  | Some a => stream_stopped a
  | None => true
  end.

(** The session is stopped when every stream that is open is. *)
Definition session (d : FullDuplex) : SessionState :=
  if opt_stopped (inputStream d) && opt_stopped (outputStream d)
  then Stopped else Running.
End Oboe.
End Android.

(** ** Calls that moved no frame *)

(** A push that accepted nothing, or a pop that returned nothing and left
    silence in the [n] slots it was asked to fill. *)
Definition event_silent (e : event) : Prop :=
  match e with
  | Pushed _ _ k => k = 0
  | Popped dst' n got =>
      got = 0 /\ take (Z.to_nat n) dst' = replicate (Z.to_nat n) silence
  end.

(** ** The FIFO of the ALSA program

    The copy in [alsa_loopback.cpp]; the iOS and Android copies read the
    same, the WASAPI copy has the macOS comparison and [std::fill] in place
    of [memset].  [push] and [pop] return nothing here. *)

Module Alsa.
(** [void push(const float* src, uint32_t n)] *)
Definition push (s : FloatFIFO) (src : list float32) (n : Z)
  : option FloatFIFO :=
  let wi := w s in
  let ri := r s in
  let free := Z.land (U32.sub (U32.add (mask s) 1) (U32.sub wi ri)) (mask s) in
  let n := if n >? free then free else n in
  match push_loop (Z.to_nat n) 0 wi (mask s) src (buf s) with
  | None => None
  | Some b =>
      Some {| buf := b;
              w := Z.land (U32.add wi n) (mask s);
              r := r s;
              mask := mask s |}
  end.

(** [void pop(float* dst, uint32_t n)], with [got = n < avail ? n : avail]. *)
Definition pop (s : FloatFIFO) (dst : list float32) (n : Z)
  : option (FloatFIFO * list float32) :=
  let wi := w s in
  let ri := r s in
  let avail := Z.land (U32.sub wi ri) (mask s) in
  let got := if n <? avail then n else avail in
  match pop_loop (Z.to_nat got) 0 ri (mask s) (buf s) dst with
  | None => None
  | Some dst1 =>
      let s' := {| buf := buf s;
                   w := w s;
                   r := Z.land (U32.add ri got) (mask s);
                   mask := mask s |} in
      if got <? n
      then match zero_fill dst1 (Z.to_nat got) (Z.to_nat (n - got)) with
           | None => None
           | Some dst2 => Some (s', dst2)
           end
      else Some (s', dst1)
  end.
End Alsa.

(** ** The threads of the ALSA program ([alsa_loopback.cpp]) *)

Module AlsaProgram.
Definition BUFFER_FRAMES : Z := 128.

(** [static FloatFIFO gFifo(1 << 16);] *)
Definition gFifo : option FloatFIFO := FloatFIFO_new (Z.shiftl 1 16).

(** [std::vector<float> buf(BUFFER_FRAMES);] *)
Definition fresh_buf : list float32 :=
  replicate (Z.to_nat BUFFER_FRAMES) silence.

(** A vector after a device call wrote [data] into it from the front: the
    size stays, the slots behind [data] keep what they held. *)
Definition written (buf data : list float32) : list float32 :=
  take (length buf) (data ++ drop (length data) buf).

(** The FIFO and the [buf] of each of the two threads. *)
Record threads := mkThreads {
  fifo : FloatFIFO;
  capBuf : list float32;
  playBuf : list float32
}.

(** What one pass through a loop body did to the devices. *)
Inductive effect :=
| CapturePrepare
| CaptureDone
| PlaybackWrite (samples : list float32) (prepared : bool).

(** One pass through the loop body of [captureThread]: [frames] is what
    [snd_pcm_readi] returned, [data] what it wrote into [buf]. *)
Definition capture_round (t : threads) (frames : Z) (data : list float32)
  : option (threads * effect) :=
  let buf := written (capBuf t) data in
  if frames <? 0
  then Some ({| fifo := fifo t; capBuf := buf; playBuf := playBuf t |},
             CapturePrepare)
  else match Alsa.push (fifo t) buf (U32.wrap frames) with
       | None => None
       | Some f' =>
           Some ({| fifo := f'; capBuf := buf; playBuf := playBuf t |},
                 CaptureDone)
       end.

(** One pass through the loop body of [playbackThread]: [frames] is what
    [snd_pcm_writei] returned for the samples it was handed. *)
Definition playback_round (t : threads) (frames : Z)
  : option (threads * effect) :=
  match Alsa.pop (fifo t) (playBuf t) BUFFER_FRAMES with
  | None => None
  | Some (f', buf') =>
      Some ({| fifo := f'; capBuf := capBuf t; playBuf := buf' |},
            PlaybackWrite buf' (frames <? 0))
  end.

(** The two loops, one pass at a time in any order. *)
Inductive round :=
| Capture (frames : Z) (data : list float32)
| Playback (frames : Z).

Fixpoint rounds (t : threads) (rs : list round)
  : option (threads * list effect) :=
  match rs with
  | [] => Some (t, [])
  | rd :: rs' =>
      match (match rd with
             | Capture frames data => capture_round t frames data
             | Playback frames => playback_round t frames
             end) with
      | None => None
      | Some (t', e) =>
          match rounds t' rs' with
          | None => None
          | Some (t'', es) => Some (t'', e :: es)
          end
      end
  end.

(** Samples handed to [snd_pcm_writei] that are one period of silence. *)
Definition effect_silent (e : effect) : Prop :=
  match e with
  | PlaybackWrite samples _ => samples = fresh_buf
  | _ => True
  end.
End AlsaProgram.

(** ** The callbacks of the macOS program ([vpio_loopback.cpp]) *)

Module MacOS.
Definition OSStatus := Z.
Definition noErr : OSStatus := 0.

(** [static FloatFIFO gFifo(1 << 16);] *)
Definition gFifo : option FloatFIFO := FloatFIFO_new (Z.shiftl 1 16).

(** The newline of the format strings. *)
Definition newline : string := String (ascii_of_nat 10) EmptyString.

(** [%d] of an [int]. *)
Definition decimal (z : Z) : string := NilZero.string_of_int (Z.to_int z).

(** A byte as the [char] it is stored in; [char] is signed on Apple
    targets. *)
Definition to_char (b : Z) : Z := if b <? 128 then b else b - 256.

(** [char cc[5]; *(UInt32* )cc = CFSwapInt32HostToBig(s); cc[4] = 0;]
    [CFSwapInt32HostToBig] is CoreFoundation's: whatever the byte order of
    the host, the store leaves the four bytes of [s] most significant
    first. *)
Definition cc (s : OSStatus) : list Z :=
  let u := U32.wrap s in
  [to_char (Z.land (Z.shiftr u 24) 255);
   to_char (Z.land (Z.shiftr u 16) 255);
   to_char (Z.land (Z.shiftr u 8) 255);
   to_char (Z.land u 255);
   0].

(** [%s] of a [char] array: the characters before the first NUL. *)
Fixpoint c_str (chars : list Z) : string :=
  match chars with
  | [] => EmptyString
  | c :: chars' =>
      if c =? 0 then EmptyString
      else String (ascii_of_N (Z.to_N (c mod 256))) (c_str chars')
  end.

Section Libc.
(** [isprint] of [<cctype>], on the [int] a [char] promotes to. *)
Variable isprint : Z -> bool.

(** [static void print_error(const char* where, OSStatus s)]; the result
    is the line written to [stderr]. *)
Definition print_error (where_ : string) (s : OSStatus) : string :=
  let chars := cc s in
  if isprint (nth 0 chars 0) && isprint (nth 1 chars 0)
     && isprint (nth 2 chars 0) && isprint (nth 3 chars 0)
  then (where_ ++ ": OSStatus '" ++ c_str chars ++ "'" ++ newline)%string
  else (where_ ++ ": OSStatus " ++ decimal s ++ newline)%string.

(** What [AudioUnitRender] did: its status and the samples it wrote,
    from the front, into the buffer it was given. *)
Record render := mkRender {
  status : OSStatus;
  rendered : list float32
}.

(** [std::vector<float> temp(inNumberFrames);] after [AudioUnitRender]:
    [inNumberFrames] floats, zero where nothing was written. *)
Definition temp_after (inNumberFrames : Z) (rr : render) : list float32 :=
  take (Z.to_nat inNumberFrames)
       (rendered rr ++ replicate (Z.to_nat inNumberFrames) silence).

(** [static OSStatus InputCallback(...)], on the FIFO and the lines written
    to [stderr] so far.  [rt_set_realtime] touches neither. *)
Definition InputCallback (fifo : FloatFIFO) (stderr : list string)
  (inNumberFrames : Z) (rr : render)
  : option (FloatFIFO * list string * OSStatus) :=
  let temp := temp_after inNumberFrames rr in
  let s := status rr in
  if negb (s =? noErr)
  then Some (fifo,
             stderr ++ [print_error "AudioUnitRender (input)" s],
             s)
  else match push fifo temp inNumberFrames with
       | None => None
       | Some (fifo', _) => Some (fifo', stderr, noErr)
       end.

(** [static OSStatus RenderCallback(...)]; [out] is
    [ioData->mBuffers[0].mData]. *)
Definition RenderCallback (fifo : FloatFIFO) (out : list float32)
  (inNumberFrames : Z)
  : option (FloatFIFO * list float32 * OSStatus) :=
  match pop fifo out inNumberFrames with
  | None => None
  | Some (fifo', out', _) => Some (fifo', out', noErr)
  end.

(** The audio unit calling back, one callback at a time. *)
Inductive callback :=
| Input (inNumberFrames : Z) (rr : render)
| Render (out : list float32) (inNumberFrames : Z).

Inductive outcome :=
| InputDone (st : OSStatus)
| RenderDone (out' : list float32) (inNumberFrames : Z) (st : OSStatus).

Fixpoint play (fifo : FloatFIFO) (stderr : list string) (cbs : list callback)
  : option (FloatFIFO * list string * list outcome) :=
  match cbs with
  | [] => Some (fifo, stderr, [])
  | Input n rr :: cbs' =>
      match InputCallback fifo stderr n rr with
      | None => None
      | Some (fifo', stderr', st) =>
          match play fifo' stderr' cbs' with
          | None => None
          | Some (fifo'', stderr'', outs) =>
              Some (fifo'', stderr'', InputDone st :: outs)
          end
      end
  | Render out n :: cbs' =>
      match RenderCallback fifo out n with
      | None => None
      | Some (fifo', out', st) =>
          match play fifo' stderr cbs' with
          | None => None
          | Some (fifo'', stderr'', outs) =>
              Some (fifo'', stderr'', RenderDone out' n st :: outs)
          end
      end
  end.

(** A callback within the contract of the audio unit: a [UInt32] frame
    count, and an output buffer that holds that many samples. *)
Definition callback_ok (cb : callback) : Prop :=
  match cb with
  | Input n _ => U32.in_range n
  | Render out n => U32.in_range n /\ n <= Z.of_nat (length out)
  end.

(** A render callback that succeeded and put out silence only. *)
Definition outcome_silent (o : outcome) : Prop :=
  match o with
  | InputDone _ => True
  | RenderDone out' n st =>
      st = noErr /\ take (Z.to_nat n) out' = replicate (Z.to_nat n) silence
  end.
End Libc.
End MacOS.

(** * Properties *)

Example new8 :
  FloatFIFO_new 8 = Some (mkFloatFIFO (replicate 8 silence) 0 0 7).
Proof. reflexivity. Qed.

Example new5_rounds_up :
  FloatFIFO_new 5 = Some (mkFloatFIFO (replicate 8 silence) 0 0 7).
Proof. reflexivity. Qed.

(** ** Masking is reduction modulo the capacity *)

Lemma pow2_divides (k : Z) : 0 <= k <= 32 -> (2 ^ k | 2 ^ 32).
Proof.
  intros Hk. exists (2 ^ (32 - k)).
  rewrite <- Z.pow_add_r by lia. f_equal. lia.
Qed.

Lemma land_mask_mod (k x : Z) :
  0 <= k <= 32 -> Z.land (U32.wrap x) (2 ^ k - 1) = x mod 2 ^ k.
Proof.
  intros Hk. unfold U32.wrap, U32.modulus.
  replace (2 ^ k - 1) with (Z.ones k) by (rewrite Z.ones_equiv; lia).
  rewrite Z.land_ones by lia.
  apply Z.mod_mod_divide, pow2_divides, Hk.
Qed.

Lemma wrap_small (x : Z) : U32.in_range x -> U32.wrap x = x.
Proof. unfold U32.in_range, U32.wrap. intros H. apply Z.mod_small. lia. Qed.

Lemma wrap_range (x : Z) : U32.in_range (U32.wrap x).
Proof.
  unfold U32.in_range, U32.wrap, U32.modulus. apply Z.mod_pos_bound. lia.
Qed.

Lemma pow2_le_modulus (k : Z) : 0 <= k <= 31 -> 0 < 2 ^ k < U32.modulus.
Proof.
  intros Hk. unfold U32.modulus. split; [lia|].
  apply Z.pow_lt_mono_r; lia.
Qed.

(** With a constructor mask, the free space [push] computes is the
    capacity less the readable count, reduced modulo the capacity. *)
Lemma freeFrames_mod (s : FloatFIFO) (k : Z) :
  0 <= k <= 31 -> mask s = 2 ^ k - 1 ->
  freeFrames s = (2 ^ k - avail s) mod 2 ^ k /\ avail s = (w s - r s) mod 2 ^ k.
Proof.
  intros Hk Hm. unfold freeFrames, avail, U32.sub, U32.add. rewrite Hm.
  rewrite !land_mask_mod by lia.
  replace (2 ^ k - 1 + 1) with (2 ^ k) by lia.
  split; [|reflexivity].
  pose proof (pow2_le_modulus k Hk) as Hp.
  rewrite (wrap_small (2 ^ k)) by (unfold U32.in_range; lia).
  unfold U32.wrap, U32.modulus.
  rewrite (Zminus_mod (2 ^ k) ((w s - r s) mod 2 ^ 32)).
  rewrite Z.mod_mod_divide by (apply pow2_divides; lia).
  rewrite (Zminus_mod (2 ^ k) ((w s - r s) mod 2 ^ k)).
  rewrite Z.mod_mod by lia. reflexivity.
Qed.

Lemma avail_range (s : FloatFIFO) : wf s -> 0 <= avail s <= mask s.
Proof.
  intros (k & Hk & Hm & _). destruct (freeFrames_mod s k Hk Hm) as [_ ->].
  rewrite Hm. pose proof (Z.mod_pos_bound (w s - r s) (2 ^ k)). lia.
Qed.

Lemma freeFrames_range (s : FloatFIFO) : wf s -> 0 <= freeFrames s <= mask s.
Proof.
  intros (k & Hk & Hm & _). destruct (freeFrames_mod s k Hk Hm) as [-> _].
  rewrite Hm. pose proof (Z.mod_pos_bound (2 ^ k - avail s) (2 ^ k)). lia.
Qed.

(** The slip in [push]: an empty ring and a full ring both give 0. *)
Lemma freeFrames_empty (s : FloatFIFO) : wf s -> w s = r s -> freeFrames s = 0.
Proof.
  intros (k & Hk & Hm & _) Heq.
  destruct (freeFrames_mod s k Hk Hm) as [-> ->].
  rewrite Heq, Z.sub_diag, Zmod_0_l, Z.sub_0_r. apply Z_mod_same_full.
Qed.

Lemma freeFrames_nonempty (s : FloatFIFO) :
  wf s -> 0 < avail s -> freeFrames s = capacity s - avail s.
Proof.
  intros Hwf Hpos. pose proof (avail_range s Hwf) as Hr.
  destruct Hwf as (k & Hk & Hm & Hc & _).
  destruct (freeFrames_mod s k Hk Hm) as [-> _].
  rewrite Hc. apply Z.mod_small. lia.
Qed.

(** ** The constructor *)

Lemma shl1_pow2 (k : Z) : 0 <= k < 31 -> U32.shl1 (2 ^ k) = 2 ^ (k + 1).
Proof.
  intros Hk. unfold U32.shl1. rewrite Z.shiftl_mul_pow2 by lia.
  rewrite <- Z.pow_add_r by lia. apply wrap_small.
  pose proof (pow2_le_modulus (k + 1)). unfold U32.in_range. lia.
Qed.

(** Once [sz] has been shifted to 0 the loop never leaves. *)
Lemma round_up_pow2_zero (fuel : nat) (framesPow2 : Z) :
  0 < framesPow2 -> round_up_pow2 fuel framesPow2 0 = None.
Proof.
  intros Hpos. induction fuel as [|fuel IH]; [reflexivity|].
  simpl. destruct (Z.ltb_spec 0 framesPow2); [|lia].
  exact IH.
Qed.

Lemma round_up_pow2_result (fuel : nat) (framesPow2 k p : Z) :
  0 <= k <= 31 ->
  round_up_pow2 fuel framesPow2 (2 ^ k) = Some p ->
  exists k', k <= k' <= 31 /\ p = 2 ^ k' /\ framesPow2 <= p.
Proof.
  revert k. induction fuel as [|fuel IH]; intros k Hk; [discriminate|].
  simpl. destruct (Z.ltb_spec (2 ^ k) framesPow2) as [Hlt|Hge].
  - destruct (Z.eq_dec k 31) as [->|Hne].
    + change (U32.shl1 (2 ^ 31)) with 0.
      rewrite round_up_pow2_zero by (assert (0 < 2 ^ 31) by lia; lia).
      discriminate.
    + rewrite shl1_pow2 by lia. intros Hp.
      destruct (IH (k + 1) ltac:(lia) Hp) as (k' & Hk' & -> & Hle).
      exists k'. split; [lia|]. auto.
  - intros [= <-]. exists k. split; [lia|]. auto.
Qed.

(** Requests above [2^31] make the constructor loop for ever. *)
Lemma round_up_pow2_diverges (fuel : nat) (framesPow2 k : Z) :
  0 <= k <= 31 -> 2 ^ 31 < framesPow2 ->
  round_up_pow2 fuel framesPow2 (2 ^ k) = None.
Proof.
  intros Hk Hbig. destruct (round_up_pow2 fuel framesPow2 (2 ^ k)) as [p|] eqn:E;
    [|reflexivity].
  destruct (round_up_pow2_result _ _ _ _ Hk E) as (k' & Hk' & -> & Hle).
  assert (2 ^ k' <= 2 ^ 31) by (apply Z.pow_le_mono_r; lia). lia.
Qed.

Lemma round_up_pow2_total (fuel : nat) (framesPow2 k : Z) :
  0 <= k <= 31 -> framesPow2 <= 2 ^ 31 -> (Z.to_nat (31 - k) < fuel)%nat ->
  is_Some (round_up_pow2 fuel framesPow2 (2 ^ k)).
Proof.
  revert k. induction fuel as [|fuel IH]; intros k Hk Hsz Hfuel; [lia|].
  simpl. destruct (Z.ltb_spec (2 ^ k) framesPow2) as [Hlt|Hge]; [|eauto].
  assert (k < 31).
  { destruct (Z.eq_dec k 31) as [->|]; lia. }
  rewrite shl1_pow2 by lia. apply IH; lia.
Qed.

Lemma FloatFIFO_new_total (framesPow2 : Z) :
  framesPow2 <= 2 ^ 31 -> is_Some (FloatFIFO_new framesPow2).
Proof.
  intros Hsz. unfold FloatFIFO_new.
  destruct (round_up_pow2_total ctor_fuel framesPow2 0) as [p Hp];
    [lia|lia|unfold ctor_fuel; lia|].
  change (2 ^ 0) with 1 in Hp. rewrite Hp. eauto.
Qed.

Lemma FloatFIFO_new_spec (framesPow2 : Z) (s : FloatFIFO) :
  FloatFIFO_new framesPow2 = Some s ->
  wf s /\ w s = 0 /\ r s = 0 /\ framesPow2 <= capacity s /\
  buf s = replicate (Z.to_nat (capacity s)) silence.
Proof.
  unfold FloatFIFO_new.
  destruct (round_up_pow2 ctor_fuel framesPow2 1) as [p|] eqn:E; [|discriminate].
  intros [= <-]. change 1 with (2 ^ 0) in E.
  destruct (round_up_pow2_result ctor_fuel framesPow2 0 p ltac:(lia) E)
    as (k & Hk & -> & Hle).
  pose proof (pow2_le_modulus k ltac:(lia)) as Hp.
  assert (Hcap : capacity (mkFloatFIFO (replicate (Z.to_nat (2 ^ k)) silence)
                             0 0 (U32.sub (2 ^ k) 1)) = 2 ^ k).
  { unfold capacity. simpl. rewrite length_replicate. lia. }
  assert (Hmask : U32.sub (2 ^ k) 1 = 2 ^ k - 1).
  { unfold U32.sub. apply wrap_small. unfold U32.in_range. lia. }
  split; [|rewrite Hcap; simpl; auto].
  exists k. rewrite Hcap. unfold U32.in_range, U32.modulus. simpl. lia.
Qed.

(** ** Slots *)

Lemma slot_in_range (s : FloatFIFO) (x : Z) :
  wf s -> (Z.to_nat (Z.land (U32.wrap x) (mask s)) < length (buf s))%nat.
Proof.
  intros (k & Hk & Hm & Hc & _). unfold capacity in Hc.
  rewrite Hm, land_mask_mod by lia.
  pose proof (Z.mod_pos_bound x (2 ^ k)). lia.
Qed.

Lemma slot_mod (s : FloatFIFO) (x : Z) :
  wf s -> Z.of_nat (slot s x) = x mod capacity s.
Proof.
  intros (k & Hk & Hm & Hc & _). unfold slot.
  rewrite Hm, Hc, land_mask_mod by lia.
  pose proof (Z.mod_pos_bound x (2 ^ k)). lia.
Qed.

(** Logical indices less than a capacity apart land in different slots. *)
Lemma slot_inj (s : FloatFIFO) (x y : Z) :
  wf s -> x < y < x + capacity s -> slot s x <> slot s y.
Proof.
  intros Hwf Hxy Heq.
  assert (Hm : x mod capacity s = y mod capacity s)
    by (rewrite <- !slot_mod by exact Hwf; congruence).
  assert (Hz : (y - x) mod capacity s = 0)
    by (rewrite Zminus_mod, Hm, Z.sub_diag; apply Zmod_0_l).
  rewrite Z.mod_small in Hz; lia.
Qed.

(** ** The copy loop of [pop] *)

Lemma pop_loop_spec (ri msk : Z) (b : list float32) :
  (forall j, (Z.to_nat (Z.land (U32.add ri j) msk) < length b)%nat) ->
  forall (cnt : nat) (i : Z) (dst : list float32),
    0 <= i -> (Z.to_nat i + cnt <= length dst)%nat ->
    exists dst',
      pop_loop cnt i ri msk b dst = Some dst' /\
      length dst' = length dst /\
      forall p : nat,
        dst' !! p =
          if decide (Z.to_nat i <= p < Z.to_nat i + cnt)%nat
          then b !! Z.to_nat (Z.land (U32.add ri (Z.of_nat p)) msk)
          else dst !! p.
Proof.
  intros Hb. induction cnt as [|cnt IH]; intros i dst Hi Hlen.
  - exists dst. repeat split; auto. intros p.
    destruct (decide _) as [Hd|]; [lia|reflexivity].
  - simpl.
    destruct (lookup_lt_is_Some_2 b _ (Hb i)) as [x Hx]. rewrite Hx.
    destruct (decide (Z.to_nat i < length dst)%nat) as [_|]; [|lia].
    destruct (IH (i + 1) (<[Z.to_nat i := x]> dst)) as (dst' & Hrun & Hl & Hget).
    + lia.
    + rewrite length_insert. lia.
    + exists dst'. split; [exact Hrun|]. split.
      * rewrite Hl. apply length_insert.
      * intros p. rewrite Hget.
        destruct (decide (Z.to_nat (i + 1) <= p < Z.to_nat (i + 1) + cnt)%nat)
          as [Hin|Hout].
        -- destruct (decide _) as [_|]; [reflexivity|lia].
        -- destruct (decide (p = Z.to_nat i)) as [->|Hne].
           ++ rewrite list_lookup_insert_eq by lia.
              destruct (decide _) as [_|]; [|lia].
              rewrite Z2Nat.id by lia. auto.
           ++ rewrite list_lookup_insert_ne by auto.
              destruct (decide _) as [|_]; [lia|reflexivity].
Qed.

Lemma ring_read_lookup (s : FloatFIFO) (from : Z) (cnt p : nat) :
  wf s -> (p < cnt)%nat ->
  ring_read s from cnt !! p = buf s !! slot s (from + Z.of_nat p).
Proof.
  intros Hwf Hp. unfold ring_read.
  rewrite list_lookup_fmap, lookup_seq_lt by exact Hp. simpl.
  destruct (lookup_lt_is_Some_2 (buf s) (slot s (from + Z.of_nat p))) as [x ->];
    [|reflexivity].
  apply slot_in_range, Hwf.
Qed.

Lemma length_ring_read (s : FloatFIFO) (from : Z) (cnt : nat) :
  length (ring_read s from cnt) = cnt.
Proof. unfold ring_read. rewrite length_fmap. apply length_seq. Qed.

(** What [pop] returns on a well-formed FIFO, for every count within the
    destination: the oldest [min n avail] frames, then silence up to [n],
    then the untouched rest of the destination. *)
Lemma pop_spec (s : FloatFIFO) (dst : list float32) (n : Z) :
  wf s -> 0 <= n <= Z.of_nat (length dst) ->
  let got := Z.min n (avail s) in
  pop s dst n =
    Some ({| buf := buf s; w := w s;
             r := Z.land (U32.add (r s) got) (mask s); mask := mask s |},
          ring_read s (r s) (Z.to_nat got)
            ++ replicate (Z.to_nat (n - got)) silence
            ++ drop (Z.to_nat n) dst,
          got).
Proof.
  intros Hwf Hn got. pose proof (avail_range s Hwf) as Hav.
  unfold pop.
  assert (Hgot : (if n <=? avail s then n else avail s) = got).
  { unfold got. destruct (Z.leb_spec n (avail s)); lia. }
  rewrite Hgot.
  destruct (pop_loop_spec (r s) (mask s) (buf s)
              (fun j => slot_in_range s (r s + j) Hwf)
              (Z.to_nat got) 0 dst) as (dst1 & -> & Hl1 & Hget); [lia|lia|].
  assert (Hcopy : take (Z.to_nat got) dst1 = ring_read s (r s) (Z.to_nat got)).
  { apply list_eq. intros p.
    destruct (decide (p < Z.to_nat got)%nat) as [Hp|Hp].
    - rewrite lookup_take_lt, Hget, ring_read_lookup by auto.
      destruct (decide _) as [_|]; [reflexivity|simpl in *; lia].
    - rewrite lookup_take_ge by lia.
      symmetry. apply lookup_ge_None. rewrite length_ring_read. lia. }
  assert (Hrest : drop (Z.to_nat got) dst1 = drop (Z.to_nat got) dst).
  { apply list_eq. intros p. rewrite !lookup_drop, Hget.
    destruct (decide _) as [|_]; [simpl in *; lia|reflexivity]. }
  destruct (Z.ltb_spec got n) as [Hlt|Hge].
  - unfold zero_fill.
    destruct (decide _) as [_|Hbad]; [|rewrite Hl1 in Hbad; lia].
    rewrite Hcopy.
    replace (Z.to_nat n) with (Z.to_nat got + Z.to_nat (n - got))%nat by lia.
    rewrite <- !drop_drop, Hrest. reflexivity.
  - replace (n - got) with 0 by lia.
    replace (Z.to_nat n) with (Z.to_nat got) by lia. simpl.
    rewrite <- Hcopy, <- Hrest, take_drop. reflexivity.
Qed.

(** ** The copy loop of [push] *)

(** Whatever the loop returns has the length of the ring and differs from
    it only in the slots the loop indexes. *)
Lemma push_loop_frame (wi msk : Z) (src : list float32) :
  forall (cnt : nat) (i : Z) (b b' : list float32),
    push_loop cnt i wi msk src b = Some b' ->
    length b' = length b /\
    forall p : nat,
      (forall j, i <= j < i + Z.of_nat cnt ->
                 Z.to_nat (Z.land (U32.add wi j) msk) <> p) ->
      b' !! p = b !! p.
Proof.
  induction cnt as [|cnt IH]; intros i b b'; simpl.
  - intros [= <-]. auto.
  - destruct (src !! Z.to_nat i) as [x|]; [|discriminate].
    destruct (decide _) as [Hin|]; [|discriminate].
    intros Hrun. destruct (IH _ _ _ Hrun) as [Hl Hfr].
    rewrite length_insert in Hl. split; [exact Hl|].
    intros p Hp. rewrite Hfr by (intros j Hj; apply Hp; lia).
    apply list_lookup_insert_ne, Hp. lia.
Qed.

Lemma push_loop_spec (wi msk : Z) (src : list float32) (len : nat) :
  (forall j, (Z.to_nat (Z.land (U32.add wi j) msk) < len)%nat) ->
  forall (cnt : nat) (i : Z) (b : list float32),
    0 <= i -> (Z.to_nat i + cnt <= length src)%nat -> length b = len ->
    exists b',
      push_loop cnt i wi msk src b = Some b' /\
      forall j, i <= j < i + Z.of_nat cnt ->
        (forall j', j < j' < i + Z.of_nat cnt ->
           Z.to_nat (Z.land (U32.add wi j') msk)
             <> Z.to_nat (Z.land (U32.add wi j) msk)) ->
        b' !! Z.to_nat (Z.land (U32.add wi j) msk) = src !! Z.to_nat j.
Proof.
  intros Hslot. induction cnt as [|cnt IH]; intros i b Hi Hsrc Hlen.
  - exists b. split; [reflexivity|]. intros j Hj. lia.
  - simpl.
    destruct (lookup_lt_is_Some_2 src (Z.to_nat i) ltac:(lia)) as [x Hx].
    rewrite Hx.
    destruct (decide _) as [Hin|Hout];
      [|exfalso; apply Hout; rewrite Hlen; apply Hslot].
    destruct (IH (i + 1) (<[Z.to_nat (Z.land (U32.add wi i) msk) := x]> b))
      as (b' & Hrun & Hst); [lia|lia|rewrite length_insert; exact Hlen|].
    exists b'. split; [exact Hrun|]. intros j Hj Hlast.
    destruct (Z.eq_dec j i) as [->|Hne].
    + destruct (push_loop_frame _ _ _ _ _ _ _ Hrun) as [_ Hfr].
      rewrite Hfr by (intros j' Hj'; apply Hlast; lia).
      rewrite list_lookup_insert_eq by exact Hin. auto.
    + apply Hst; [lia|]. intros j' Hj'. apply Hlast. lia.
Qed.

(** What [push] returns on a well-formed FIFO, for every count within the
    source: it accepts [min n freeFrames] frames, stores them in order in
    the slots from [w] on, leaves every other slot alone, and moves [w]. *)
Lemma push_spec (s : FloatFIFO) (src : list float32) (n : Z) :
  wf s -> 0 <= n <= Z.of_nat (length src) ->
  let k := Z.min n (freeFrames s) in
  exists b',
    push s src n =
      Some ({| buf := b'; w := Z.land (U32.add (w s) k) (mask s);
               r := r s; mask := mask s |}, k) /\
    length b' = length (buf s) /\
    (forall p : nat,
       (forall j, 0 <= j < k -> slot s (w s + j) <> p) ->
       b' !! p = buf s !! p) /\
    (forall j, 0 <= j < k -> b' !! slot s (w s + j) = src !! Z.to_nat j).
Proof.
  intros Hwf Hn k. pose proof (freeFrames_range s Hwf) as Hfree.
  unfold push.
  assert (Hk : (if n >? freeFrames s then freeFrames s else n) = k).
  { unfold k. destruct (Z.gtb_spec n (freeFrames s)); lia. }
  rewrite Hk.
  destruct (push_loop_spec (w s) (mask s) src (length (buf s))
              (fun j => slot_in_range s (w s + j) Hwf)
              (Z.to_nat k) 0 (buf s)) as (b' & Hrun & Hst); [lia|lia|auto|].
  rewrite Hrun. exists b'. split; [reflexivity|].
  destruct (push_loop_frame _ _ _ _ _ _ _ Hrun) as [Hl Hfr].
  split; [exact Hl|]. split.
  - intros p Hp. apply Hfr. intros j Hj. apply (Hp j). lia.
  - intros j Hj. apply Hst; [lia|]. intros j' Hj'.
    fold (slot s (w s + j')). fold (slot s (w s + j)).
    intros Heq. apply (slot_inj s (w s + j) (w s + j') Hwf); [|auto].
    destruct Hwf as (e & He & Hm & Hc & _). lia.
Qed.

(** ** Well-formedness is kept *)

Lemma masked_index_range (s : FloatFIFO) (x : Z) :
  wf s -> 0 <= Z.land (U32.wrap x) (mask s) <= mask s.
Proof.
  intros (k & Hk & Hm & _). rewrite Hm, land_mask_mod by lia.
  pose proof (Z.mod_pos_bound x (2 ^ k)). lia.
Qed.

Lemma mask_below_modulus (s : FloatFIFO) : wf s -> 0 <= mask s < U32.modulus.
Proof.
  intros (k & Hk & Hm & _). pose proof (pow2_le_modulus k Hk). lia.
Qed.

Lemma push_wf (s s' : FloatFIFO) (src : list float32) (n k : Z) :
  wf s -> push s src n = Some (s', k) -> wf s'.
Proof.
  intros Hwf. unfold push.
  destruct (push_loop _ _ _ _ _ _) as [b|] eqn:Hrun; [|discriminate].
  intros [= <- _].
  destruct (push_loop_frame _ _ _ _ _ _ _ Hrun) as [Hl _].
  pose proof (masked_index_range s (w s +
    (if n >? freeFrames s then freeFrames s else n)) Hwf) as Hw.
  pose proof (mask_below_modulus s Hwf) as Hmk.
  destruct Hwf as (e & He & Hm & Hc & Hwr & Hrr).
  exists e. unfold capacity, U32.in_range, U32.add in *.
  cbn [buf w r mask]. rewrite Hl. lia.
Qed.

Lemma pop_wf (s s' : FloatFIFO) (dst dst' : list float32) (n got : Z) :
  wf s -> pop s dst n = Some (s', dst', got) -> wf s'.
Proof.
  intros Hwf. unfold pop.
  destruct (pop_loop _ _ _ _ _ _) as [d1|]; [|discriminate].
  set (g := if n <=? avail s then n else avail s).
  pose proof (masked_index_range s (r s + g) Hwf) as Hr.
  pose proof (mask_below_modulus s Hwf) as Hmk.
  assert (Hgoal : wf {| buf := buf s; w := w s;
                        r := Z.land (U32.add (r s) g) (mask s);
                        mask := mask s |}).
  { destruct Hwf as (e & He & Hm & Hc & Hwr & Hrr).
    exists e. unfold capacity, U32.in_range, U32.add in *.
    cbn [buf w r mask]. lia. }
  destruct (g <? n).
  - destruct (zero_fill _ _ _); [|discriminate]. intros [= <- _ _]. exact Hgoal.
  - intros [= <- _ _]. exact Hgoal.
Qed.

(** ** The idle FIFO: equal, masked indices *)

Lemma FloatFIFO_new_idle (framesPow2 : Z) (s : FloatFIFO) :
  FloatFIFO_new framesPow2 = Some s -> idle s.
Proof.
  intros Hnew. pose proof (FloatFIFO_new_spec _ _ Hnew) as (Hwf & Hw & Hr & _).
  pose proof (mask_below_modulus s Hwf).
  split; [exact Hwf|]. rewrite Hw, Hr. lia.
Qed.

Lemma idle_avail (s : FloatFIFO) : idle s -> avail s = 0.
Proof.
  intros ((k & Hk & Hm & _) & Heq & _).
  destruct (freeFrames_mod s k Hk Hm) as [_ ->].
  rewrite Heq, Z.sub_diag. apply Zmod_0_l.
Qed.

Lemma masked_index_id (s : FloatFIFO) (x : Z) :
  wf s -> 0 <= x <= mask s -> Z.land (U32.add x 0) (mask s) = x.
Proof.
  intros (k & Hk & Hm & _) Hx. unfold U32.add.
  rewrite Hm, land_mask_mod, Z.add_0_r by lia. apply Z.mod_small. lia.
Qed.

(** On an idle FIFO [push] accepts nothing and changes nothing. *)
Lemma push_idle (s : FloatFIFO) (src : list float32) (n : Z) :
  idle s -> 0 <= n -> push s src n = Some (s, 0).
Proof.
  intros (Hwf & Heq & Hw) Hn. unfold push.
  rewrite (freeFrames_empty s Hwf Heq).
  destruct (Z.gtb_spec n 0) as [_|Hle].
  - simpl. rewrite (masked_index_id s (w s) Hwf Hw). destruct s; reflexivity.
  - replace n with 0 by lia.
    simpl. rewrite (masked_index_id s (w s) Hwf Hw). destruct s; reflexivity.
Qed.

(** On an idle FIFO [pop] hands out silence only and changes nothing. *)
Lemma pop_idle (s : FloatFIFO) (dst : list float32) (n : Z) :
  idle s -> 0 <= n <= Z.of_nat (length dst) ->
  pop s dst n =
    Some (s, replicate (Z.to_nat n) silence ++ drop (Z.to_nat n) dst, 0).
Proof.
  intros Hidle Hn. pose proof Hidle as (Hwf & Heq & Hw).
  rewrite (pop_spec s dst n Hwf Hn), (idle_avail s Hidle).
  rewrite Z.min_r by lia. rewrite <- Heq, (masked_index_id s (w s) Hwf Hw).
  rewrite Z.sub_0_r. clear Hidle Hwf Hw.
  destruct s as [b0 w0 r0 m0]. cbn [buf w r mask] in *. subst r0. reflexivity.
Qed.

(** ** Runs *)

Lemma pop_padded_spec (s s' : FloatFIFO) (dst dst' : list float32) (n got : Z) :
  wf s -> 0 <= n <= Z.of_nat (length dst) ->
  pop s dst n = Some (s', dst', got) ->
  pop_padded (Popped dst' n got) /\ got = Z.min n (avail s) /\
  take (Z.to_nat got) dst' = ring_read s (r s) (Z.to_nat got).
Proof.
  intros Hwf Hn. rewrite (pop_spec s dst n Hwf Hn). intros [= _ <- <-].
  pose proof (avail_range s Hwf) as Hav.
  set (got := Z.min n (avail s)).
  assert (Hreal : take (Z.to_nat got)
                    (ring_read s (r s) (Z.to_nat got)
                       ++ replicate (Z.to_nat (n - got)) silence
                       ++ drop (Z.to_nat n) dst)
                  = ring_read s (r s) (Z.to_nat got)).
  { apply take_app_length'. rewrite length_ring_read. reflexivity. }
  split; [|auto]. simpl. split; [lia|].
  rewrite Hreal, app_assoc. apply take_app_length'.
  rewrite length_app, length_ring_read, length_replicate. lia.
Qed.

(** From an idle FIFO every call sequence within contract runs to the end,
    leaves the FIFO as it was, accepts nothing and hands out silence only. *)
Lemma run_idle (s : FloatFIFO) (cs : list call) :
  idle s -> Forall call_ok cs ->
  exists log,
    run s cs = Some (s, log) /\
    accepted_frames log = [] /\ real_frames log = [] /\
    accepted_count log = 0 /\ returned_count log = 0 /\
    Forall push_clipped log /\ Forall pop_padded log.
Proof.
  intros Hidle. induction cs as [|c cs IH]; intros Hok.
  - exists []. simpl. repeat split; auto.
  - inversion Hok as [|c' cs' Hc Hcs]; subst.
    destruct (IH Hcs) as (log & Hrun & Ha & Hr & Hac & Hrc & Hpc & Hpp).
    destruct c as [src n|dst n]; destruct Hc as [[Hn0 _] Hlen].
    + exists (Pushed src n 0 :: log). simpl.
      rewrite (push_idle s src n Hidle Hn0), Hrun. simpl.
      rewrite Ha, Hr, Hac, Hrc. repeat split; auto.
      * constructor; [simpl; lia|exact Hpc].
      * constructor; [exact I|exact Hpp].
    + pose proof (pop_idle s dst n Hidle (conj Hn0 Hlen)) as Hpop.
      exists (Popped (replicate (Z.to_nat n) silence ++ drop (Z.to_nat n) dst)
                n 0 :: log). simpl.
      rewrite Hpop, Hrun. simpl.
      rewrite Ha, Hr, Hac, Hrc. repeat split; auto.
      * constructor; [exact I|exact Hpc].
      * constructor; [|exact Hpp].
        destruct Hidle as (Hwf & _).
        apply (pop_padded_spec s s dst _ n 0 Hwf (conj Hn0 Hlen) Hpop).
Qed.

(** ** FIFO order on every well-formed ring *)

Lemma avail_mod (s : FloatFIFO) :
  wf s -> avail s = (w s - r s) mod capacity s.
Proof.
  intros (k & Hk & Hm & Hc & _). rewrite Hc.
  apply (freeFrames_mod s k Hk Hm).
Qed.

Lemma capacity_pos (s : FloatFIFO) : wf s -> 0 < capacity s.
Proof. intros (k & Hk & _ & Hc & _). rewrite Hc. lia. Qed.

Lemma mask_capacity (s : FloatFIFO) : wf s -> mask s = capacity s - 1.
Proof. intros (k & Hk & Hm & Hc & _). lia. Qed.

Lemma masked_mod (s : FloatFIFO) (x : Z) :
  wf s -> Z.land (U32.wrap x) (mask s) = x mod capacity s.
Proof.
  intros (k & Hk & Hm & Hc & _). rewrite Hm, Hc. apply land_mask_mod. lia.
Qed.

Lemma slot_congr (s : FloatFIFO) (x y : Z) :
  wf s -> x mod capacity s = y mod capacity s -> slot s x = slot s y.
Proof.
  intros Hwf Hxy. apply Nat2Z.inj. rewrite !slot_mod by exact Hwf. exact Hxy.
Qed.

(** The write index is the read index plus the readable count, modulo the
    capacity. *)
Lemma write_slot (s : FloatFIFO) (j : Z) :
  wf s -> slot s (w s + j) = slot s (r s + (avail s + j)).
Proof.
  intros Hwf. apply slot_congr; [exact Hwf|].
  rewrite (avail_mod s Hwf).
  replace (r s + ((w s - r s) mod capacity s + j))
    with ((w s - r s) mod capacity s + (r s + j)) by lia.
  rewrite Zplus_mod_idemp_l. f_equal. lia.
Qed.

(** One [push] on a well-formed ring. *)
Lemma push_step (s : FloatFIFO) (src : list float32) (n : Z) :
  wf s -> 0 <= n <= Z.of_nat (length src) ->
  exists s1 k,
    push s src n = Some (s1, k) /\ k = Z.min n (freeFrames s) /\ 0 <= k <= n /\
    wf s1 /\ avail s1 = (avail s + k) mod capacity s /\
    (avail s + k < capacity s -> readable s1 = readable s ++ take (Z.to_nat k) src).
Proof.
  intros Hwf Hn.
  destruct (push_spec s src n Hwf Hn) as (b' & Hpush & Hl & Hfr & Hst).
  set (k := Z.min n (freeFrames s)) in *.
  set (s1 := {| buf := b'; w := Z.land (U32.add (w s) k) (mask s);
                r := r s; mask := mask s |}) in *.
  pose proof (freeFrames_range s Hwf) as Hfree.
  pose proof (avail_range s Hwf) as Hav.
  pose proof (capacity_pos s Hwf) as Hcap.
  pose proof (mask_capacity s Hwf) as Hmk.
  assert (Hwf1 : wf s1) by (apply (push_wf s s1 src n k Hwf Hpush)).
  assert (Hcap1 : capacity s1 = capacity s)
    by (unfold capacity, s1; cbn [buf]; rewrite Hl; reflexivity).
  assert (Hav1 : avail s1 = (avail s + k) mod capacity s).
  { rewrite (avail_mod s1 Hwf1), Hcap1. unfold s1. cbn [w r].
    unfold U32.add. rewrite (masked_mod s _ Hwf), (avail_mod s Hwf).
    rewrite Zminus_mod_idemp_l, Zplus_mod_idemp_l. f_equal. lia. }
  exists s1, k. split; [exact Hpush|]. split; [reflexivity|].
  split; [lia|]. split; [exact Hwf1|]. split; [exact Hav1|].
  intros Hroom. rewrite Z.mod_small in Hav1 by lia.
  assert (Hslot1 : forall x, slot s1 x = slot s x) by reflexivity.
  apply list_eq. intros p. unfold readable. rewrite Hav1.
  destruct (decide (p < Z.to_nat (avail s))%nat) as [Hold|Hnew].
  - rewrite lookup_app_l by (rewrite length_ring_read; exact Hold).
    rewrite !ring_read_lookup by (auto; lia).
    rewrite Hslot1. unfold s1. cbn [buf r]. apply Hfr.
    intros j Hj. rewrite write_slot by exact Hwf.
    intros Heq. symmetry in Heq. revert Heq. apply slot_inj; [exact Hwf|lia].
  - rewrite lookup_app_r by (rewrite length_ring_read; lia).
    rewrite length_ring_read.
    destruct (decide (p < Z.to_nat (avail s + k))%nat) as [Hin|Hout].
    + rewrite ring_read_lookup by auto.
      rewrite lookup_take_lt by lia.
      rewrite Hslot1. unfold s1. cbn [buf r].
      replace (r s + Z.of_nat p)
        with (r s + (avail s + (Z.of_nat p - avail s))) by lia.
      rewrite <- write_slot by exact Hwf.
      rewrite Hst by lia. f_equal. lia.
    + rewrite lookup_take_ge by lia.
      apply lookup_ge_None. rewrite length_ring_read. lia.
Qed.

(** One [pop] on a well-formed ring. *)
Lemma pop_step (s : FloatFIFO) (dst : list float32) (n : Z) :
  wf s -> 0 <= n <= Z.of_nat (length dst) ->
  exists s1 dst' got,
    pop s dst n = Some (s1, dst', got) /\ got = Z.min n (avail s) /\
    pop_padded (Popped dst' n got) /\
    wf s1 /\ avail s1 = avail s - got /\
    readable s = take (Z.to_nat got) dst' ++ readable s1.
Proof.
  intros Hwf Hn.
  pose proof (pop_spec s dst n Hwf Hn) as Hpop. cbv zeta in Hpop.
  set (got := Z.min n (avail s)) in *.
  set (s1 := {| buf := buf s; w := w s;
                r := Z.land (U32.add (r s) got) (mask s); mask := mask s |}) in *.
  set (dst' := ring_read s (r s) (Z.to_nat got)
                 ++ replicate (Z.to_nat (n - got)) silence
                 ++ drop (Z.to_nat n) dst) in *.
  pose proof (avail_range s Hwf) as Hav.
  pose proof (capacity_pos s Hwf) as Hcap.
  pose proof (mask_capacity s Hwf) as Hmk.
  destruct (pop_padded_spec s s1 dst dst' n got Hwf Hn Hpop) as (Hpad & _ & Htake).
  assert (Hwf1 : wf s1) by (apply (pop_wf s s1 dst dst' n got Hwf Hpop)).
  assert (Hav1 : avail s1 = avail s - got).
  { rewrite (avail_mod s1 Hwf1). unfold capacity, s1. cbn [buf w r].
    fold (capacity s). unfold U32.add. rewrite (masked_mod s _ Hwf).
    rewrite Zminus_mod_idemp_r.
    replace (w s - (r s + got)) with ((w s - r s) - got) by lia.
    rewrite <- Zminus_mod_idemp_l, <- (avail_mod s Hwf).
    apply Z.mod_small. lia. }
  exists s1, dst', got. split; [exact Hpop|]. split; [reflexivity|].
  split; [exact Hpad|]. split; [exact Hwf1|]. split; [exact Hav1|].
  rewrite Htake. unfold readable. rewrite Hav1.
  apply list_eq. intros p.
  destruct (decide (p < Z.to_nat got)%nat) as [Hold|Hnew].
  - rewrite lookup_app_l by (rewrite length_ring_read; exact Hold).
    rewrite !ring_read_lookup by (auto; lia). reflexivity.
  - rewrite lookup_app_r by (rewrite length_ring_read; lia).
    rewrite length_ring_read.
    destruct (decide (p < Z.to_nat (avail s))%nat) as [Hin|Hout].
    + rewrite !ring_read_lookup by (auto; lia).
      assert (Hslot1 : forall x, slot s1 x = slot s x) by reflexivity.
      rewrite Hslot1. unfold s1 at 1. cbn [buf]. f_equal.
      apply slot_congr; [exact Hwf|].
      unfold s1. cbn [r]. unfold U32.add. rewrite (masked_mod s _ Hwf).
      rewrite Zplus_mod_idemp_l. f_equal. lia.
    + rewrite !(proj2 (lookup_ge_None _ _)); [reflexivity| |];
        rewrite length_ring_read; lia.
Qed.

(** With nothing readable the ring stays that way: [push] accepts nothing
    and [pop] hands out silence only. *)
Lemma run_empty (cs : list call) :
  forall s : FloatFIFO,
    wf s -> avail s = 0 -> Forall call_ok cs ->
    exists s' log,
      run s cs = Some (s', log) /\ wf s' /\ avail s' = 0 /\
      accepted_frames log = [] /\ real_frames log = [] /\
      Forall push_clipped log /\ Forall pop_padded log.
Proof.
  induction cs as [|c cs IH]; intros s Hwf Hav Hok.
  - exists s, []. simpl. repeat split; auto.
  - inversion Hok as [|c' cs' Hc Hcs]; subst.
    pose proof (capacity_pos s Hwf) as Hcap.
    destruct c as [src n|dst n]; destruct Hc as [[Hn0 _] Hlen].
    + destruct (push_step s src n Hwf (conj Hn0 Hlen))
        as (s1 & k & Hpush & Hk & Hkn & Hwf1 & Hav1 & _).
      assert (Hfree : freeFrames s = 0).
      { destruct Hwf as (e & He & Hm & Hc & _).
        destruct (freeFrames_mod s e He Hm) as [-> _].
        rewrite Hav, Z.sub_0_r. apply Z_mod_same_full. }
      assert (Hk0 : k = 0) by lia.
      rewrite Hav, Hk0, Z.mod_0_l in Hav1 by lia.
      destruct (IH s1 Hwf1 Hav1 Hcs)
        as (s' & log & Hrun & Hwf' & Hav' & Ha & Hr & Hpc & Hpp).
      exists s', (Pushed src n k :: log).
      simpl. rewrite Hpush, Hrun.
      split; [reflexivity|]. split; [exact Hwf'|]. split; [exact Hav'|].
      simpl. split; [rewrite Ha, Hk0; reflexivity|]. split; [exact Hr|].
      split; constructor; simpl; auto.
    + destruct (pop_step s dst n Hwf (conj Hn0 Hlen))
        as (s1 & dst' & got & Hpop & Hgot & Hpad & Hwf1 & Hav1 & _).
      assert (Hg0 : got = 0) by lia.
      destruct (IH s1 Hwf1 ltac:(lia) Hcs)
        as (s' & log & Hrun & Hwf' & Hav' & Ha & Hr & Hpc & Hpp).
      exists s', (Popped dst' n got :: log).
      simpl. rewrite Hpop, Hrun.
      split; [reflexivity|]. split; [exact Hwf'|]. split; [exact Hav'|].
      simpl. split; [exact Ha|]. split; [rewrite Hr, Hg0; reflexivity|].
      split; constructor; simpl; auto.
Qed.

(** Every call sequence within contract runs to the end on a well-formed
    ring, and what the pops hand out is, in order, a prefix of what was
    readable at the start followed by what the pushes accepted. *)
Lemma run_fifo_order (cs : list call) :
  forall s : FloatFIFO,
    wf s -> Forall call_ok cs ->
    exists s' log,
      run s cs = Some (s', log) /\ wf s' /\
      real_frames log `prefix_of` (readable s ++ accepted_frames log) /\
      Forall push_clipped log /\ Forall pop_padded log.
Proof.
  induction cs as [|c cs IH]; intros s Hwf Hok.
  - exists s, []. simpl. split; [reflexivity|]. split; [exact Hwf|].
    split; [apply prefix_nil|]. split; constructor.
  - inversion Hok as [|c' cs' Hc Hcs]; subst.
    pose proof (avail_range s Hwf) as Hav.
    pose proof (capacity_pos s Hwf) as Hcap.
    pose proof (mask_capacity s Hwf) as Hmk.
    destruct c as [src n|dst n]; destruct Hc as [[Hn0 _] Hlen].
    + destruct (push_step s src n Hwf (conj Hn0 Hlen))
        as (s1 & k & Hpush & Hk & Hkn & Hwf1 & Hav1 & Hread).
      destruct (Z.lt_ge_cases (avail s + k) (capacity s)) as [Hroom|Hfull].
      * destruct (IH s1 Hwf1 Hcs) as (s' & log & Hrun & Hwf' & Hpre & Hpc & Hpp).
        exists s', (Pushed src n k :: log).
        simpl. rewrite Hpush, Hrun. split; [reflexivity|]. split; [exact Hwf'|].
        simpl. rewrite (Hread Hroom), <- app_assoc in Hpre.
        split; [exact Hpre|]. split; constructor; simpl; auto.
      * pose proof (freeFrames_range s Hwf) as Hfree.
        assert (Hzero : avail s1 = 0).
        { rewrite Hav1.
          destruct (Z.eq_dec (avail s) 0) as [H0|Hpos].
          - assert (freeFrames s = 0); [|lia].
            destruct Hwf as (e & He & Hm & Hc & _).
            destruct (freeFrames_mod s e He Hm) as [-> _].
            rewrite H0, Z.sub_0_r. apply Z_mod_same_full.
          - rewrite (freeFrames_nonempty s Hwf ltac:(lia)) in Hk.
            replace (avail s + k) with (capacity s) by lia.
            apply Z_mod_same_full. }
        destruct (run_empty cs s1 Hwf1 Hzero Hcs)
          as (s' & log & Hrun & Hwf' & _ & _ & Hr & Hpc & Hpp).
        exists s', (Pushed src n k :: log).
        simpl. rewrite Hpush, Hrun. split; [reflexivity|]. split; [exact Hwf'|].
        simpl. rewrite Hr.
        split; [apply prefix_nil|]. split; constructor; simpl; auto.
    + destruct (pop_step s dst n Hwf (conj Hn0 Hlen))
        as (s1 & dst' & got & Hpop & Hgot & Hpad & Hwf1 & Hav1 & Hread).
      destruct (IH s1 Hwf1 Hcs) as (s' & log & Hrun & Hwf' & Hpre & Hpc & Hpp).
      exists s', (Popped dst' n got :: log).
      simpl. rewrite Hpop, Hrun. split; [reflexivity|]. split; [exact Hwf'|].
      simpl. rewrite Hread, <- app_assoc.
      split; [apply prefix_app, Hpre|]. split; constructor; simpl; auto.
Qed.

(** ** Concrete FIFOs *)

Ltac solve_wf k :=
  exists k; unfold capacity, U32.in_range, U32.modulus; cbn; lia.

Lemma wf_fresh8 : wf fresh8.
Proof. solve_wf 3. Qed.

Lemma wf_four_of_eight : wf four_of_eight.
Proof. solve_wf 3. Qed.

Lemma wf_one_of_four : wf one_of_four.
Proof. solve_wf 2. Qed.

Lemma call_ok_push (src : list float32) (n : Z) :
  0 <= n < U32.modulus -> n <= Z.of_nat (length src) -> call_ok (CallPush src n).
Proof. intros; split; assumption. Qed.

Lemma call_ok_pop (dst : list float32) (n : Z) :
  0 <= n < U32.modulus -> n <= Z.of_nat (length dst) -> call_ok (CallPop dst n).
Proof. intros; split; assumption. Qed.

(** ** The FIFO claims *)

(** C1 (the code departs from it).  On the FIFO the constructor returns for
    capacity 8 both indices are 0, so the free space of the claim,
    [N - (writeIdx - readIdx)], is 8 and [push(src, 5)] should accept 5
    frames.  The code masks that difference with [N - 1], gets 0, stores
    nothing, leaves [w] at 0 and returns 0. *)
Theorem push_fresh8_accepts_nothing :
  FloatFIFO_new 8 = Some fresh8 /\
  capacity fresh8 - U32.sub (w fresh8) (r fresh8) = 8 /\
  freeFrames fresh8 = 0 /\
  push fresh8 [11; 22; 33; 44; 55] 5 = Some (fresh8, 0).
Proof. repeat split; reflexivity. Qed.

(** C2 (the code departs from it).  Capacity 8, push of the five frames
    11..55, then pop of five: the push returns 0 and the pop returns 0 and
    fills the destination with five silent frames; none of the five
    pushed values comes back. *)
Theorem roundtrip_fresh8_returns_silence :
  FloatFIFO_new 8 = Some fresh8 /\
  run fresh8 [CallPush [11; 22; 33; 44; 55] 5; CallPop [91; 92; 93; 94; 95] 5]
  = Some (fresh8, [Pushed [11; 22; 33; 44; 55] 5 0;
                   Popped [silence; silence; silence; silence; silence] 5 0]).
Proof. split; reflexivity. Qed.

(** C3 (the code departs from it).  Capacity 4: the first push of three
    frames returns 0, not 3; the second push of three returns 0, not 1; the
    FIFO then holds no readable frame, it is not full. *)
Theorem overflow_fresh4_rejects_first_push :
  FloatFIFO_new 4 = Some fresh4 /\
  run fresh4 [CallPush [11; 22; 33] 3; CallPush [44; 55; 66] 3]
  = Some (fresh4, [Pushed [11; 22; 33] 3 0; Pushed [44; 55; 66] 3 0]) /\
  avail fresh4 = 0 /\ readable fresh4 = [].
Proof. repeat split; reflexivity. Qed.

(** The same slip seen from the other side: a ring that is not empty does
    take frames, up to all of its free slots, and once the last slot is
    taken the indices meet and the ring reads as empty. *)
Example full_ring_reads_empty :
  push one_of_four [22; 33; 44] 3 = Some (mkFloatFIFO [11; 22; 33; 44] 0 0 3, 3) /\
  avail (mkFloatFIFO [11; 22; 33; 44] 0 0 3) = 0.
Proof. split; reflexivity. Qed.

(** Between empty and full the ring is a FIFO. *)
Example partly_filled_ring_is_fifo :
  run one_of_four [CallPush [22; 33] 2; CallPop [91; 92] 2; CallPop [93; 94] 2]
  = Some (mkFloatFIFO [11; 22; 33; 0] 3 3 3,
          [Pushed [22; 33] 2 2; Popped [11; 22] 2 2; Popped [33; 0] 2 1]).
Proof. reflexivity. Qed.

(** C4.  On every well-formed FIFO with [a = avail] readable frames, and
    for every count [n > a] that fits the destination, [pop(dst, n)]
    returns [a], leaves in [dst] the [a] readable frames in order, then
    [n - a] silent frames, then the rest of [dst] untouched, and moves [r]
    past the frames read. *)
Theorem pop_underrun_pads_silence (s : FloatFIFO) (dst : list float32) (n : Z) :
  wf s -> U32.in_range n -> n <= Z.of_nat (length dst) -> avail s < n ->
  pop s dst n =
    Some ({| buf := buf s; w := w s;
             r := Z.land (U32.add (r s) (avail s)) (mask s); mask := mask s |},
          readable s ++ replicate (Z.to_nat (n - avail s)) silence
                     ++ drop (Z.to_nat n) dst,
          avail s) /\
  Z.of_nat (length (readable s)) = avail s.
Proof.
  intros Hwf [Hn0 _] Hlen Hlt. pose proof (avail_range s Hwf) as Hav.
  rewrite (pop_spec s dst n Hwf (conj Hn0 Hlen)).
  rewrite Z.min_r by lia. split; [reflexivity|].
  unfold readable. rewrite length_ring_read. lia.
Qed.

(** With four frames readable, [pop(dst, 10)] gives the four frames, six
    zeros, and returns 4. *)
Lemma pop_underrun_pads_silence_witness :
  pop four_of_eight [91; 92; 93; 94; 95; 96; 97; 98; 99; 90; 77] 10
  = Some (mkFloatFIFO [11; 22; 33; 44; 0; 0; 0; 0] 4 4 7,
          [11; 22; 33; 44; 0; 0; 0; 0; 0; 0; 77], 4).
Proof.
  refine (proj1 (pop_underrun_pads_silence four_of_eight
            [91; 92; 93; 94; 95; 96; 97; 98; 99; 90; 77] 10
            wf_four_of_eight _ _ _)).
  - unfold U32.in_range, U32.modulus. lia.
  - simpl. lia.
  - vm_compute. reflexivity.
Defined.

(** C5.  In every state a sequence of push and pop calls reaches from a
    freshly constructed FIFO, the wrap-around difference [w - r] lies
    between 0 and the capacity and is the count of readable frames. *)
Theorem index_difference_invariant
  (framesPow2 : Z) (s0 : FloatFIFO) (cs : list call) :
  FloatFIFO_new framesPow2 = Some s0 -> Forall call_ok cs ->
  exists s log,
    run s0 cs = Some (s, log) /\
    capacity s = capacity s0 /\
    0 <= U32.sub (w s) (r s) <= capacity s /\
    U32.sub (w s) (r s) = avail s /\
    Z.of_nat (length (readable s)) = avail s.
Proof.
  intros Hnew Hok. pose proof (FloatFIFO_new_idle _ _ Hnew) as Hidle.
  destruct (run_idle s0 cs Hidle Hok) as (log & Hrun & _).
  exists s0, log. split; [exact Hrun|]. split; [reflexivity|].
  rewrite (idle_avail s0 Hidle).
  destruct Hidle as ((k & Hk & _ & Hc & _) & Heq & _).
  unfold readable, U32.sub. rewrite Heq, Z.sub_diag, length_ring_read, Hc.
  change (U32.wrap 0) with 0. unfold avail, U32.sub.
  rewrite Heq, Z.sub_diag. change (U32.wrap 0) with 0.
  rewrite Z.land_0_l. simpl. lia.
Qed.

Lemma index_difference_invariant_witness :
  exists s log,
    run fresh8 [CallPush [11; 22; 33] 3; CallPop [91; 92] 2] = Some (s, log) /\
    capacity s = capacity fresh8 /\
    0 <= U32.sub (w s) (r s) <= capacity s /\
    U32.sub (w s) (r s) = avail s /\
    Z.of_nat (length (readable s)) = avail s.
Proof.
  apply (index_difference_invariant 8 fresh8); [reflexivity|].
  repeat constructor; unfold U32.modulus; simpl; lia.
Defined.

(** C6.  For every sequence of push and pop calls on a freshly constructed
    FIFO, the real frames handed out by the pops, concatenated in call
    order, are a prefix of the frames accepted by the pushes, concatenated
    in call order; every push accepts a front part of its input and every
    pop pads with silence after the real frames. *)
Theorem popped_frames_prefix_of_accepted
  (framesPow2 : Z) (s0 : FloatFIFO) (cs : list call) :
  FloatFIFO_new framesPow2 = Some s0 -> Forall call_ok cs ->
  exists s log,
    run s0 cs = Some (s, log) /\
    real_frames log `prefix_of` accepted_frames log /\
    Forall push_clipped log /\ Forall pop_padded log.
Proof.
  intros Hnew Hok. pose proof (FloatFIFO_new_idle _ _ Hnew) as Hidle.
  destruct (run_fifo_order cs s0 (proj1 Hidle) Hok)
    as (s & log & Hrun & _ & Hpre & Hpc & Hpp).
  exists s, log. split; [exact Hrun|]. split; [|auto].
  unfold readable in Hpre. rewrite (idle_avail s0 Hidle) in Hpre.
  exact Hpre.
Qed.

Lemma popped_frames_prefix_of_accepted_witness :
  exists s log,
    run fresh4 [CallPush [11; 22; 33] 3; CallPop [91; 92] 2;
                CallPush [44; 55; 66] 3; CallPop [93; 94; 95; 96; 97] 5]
      = Some (s, log) /\
    real_frames log `prefix_of` accepted_frames log /\
    Forall push_clipped log /\ Forall pop_padded log.
Proof.
  apply (popped_frames_prefix_of_accepted 4 fresh4); [reflexivity|].
  repeat constructor; unfold U32.modulus; simpl; lia.
Defined.

(** C7.  For every sequence of push and pop calls on a freshly constructed
    FIFO, the frames returned by the pops number the frames accepted by the
    pushes less the frames still readable at the end. *)
Theorem frame_conservation
  (framesPow2 : Z) (s0 : FloatFIFO) (cs : list call) :
  FloatFIFO_new framesPow2 = Some s0 -> Forall call_ok cs ->
  exists s log,
    run s0 cs = Some (s, log) /\
    returned_count log = accepted_count log - avail s /\
    Z.of_nat (length (real_frames log)) = returned_count log /\
    Z.of_nat (length (accepted_frames log)) = accepted_count log.
Proof.
  intros Hnew Hok. pose proof (FloatFIFO_new_idle _ _ Hnew) as Hidle.
  destruct (run_idle s0 cs Hidle Hok)
    as (log & Hrun & Ha & Hr & Hac & Hrc & _).
  exists s0, log. split; [exact Hrun|].
  rewrite Ha, Hr, Hac, Hrc, (idle_avail s0 Hidle). simpl. lia.
Qed.

Lemma frame_conservation_witness :
  exists s log,
    run fresh8 [CallPush [11; 22; 33; 44; 55] 5; CallPop [91; 92; 93] 3;
                CallPush [66; 77] 2]
      = Some (s, log) /\
    returned_count log = accepted_count log - avail s /\
    Z.of_nat (length (real_frames log)) = returned_count log /\
    Z.of_nat (length (accepted_frames log)) = accepted_count log.
Proof.
  apply (frame_conservation 8 fresh8); [reflexivity|].
  repeat constructor; unfold U32.modulus; simpl; lia.
Defined.

(** C9.  Whenever the stored indices are equal, the free space [push]
    computes is 0, whatever the source and the count: the ring is left as
    it was, [r] is left as it was, and 0 is returned. *)
Theorem push_equal_indices_accepts_nothing
  (s : FloatFIFO) (src : list float32) (n : Z) :
  wf s -> w s = r s -> U32.in_range n ->
  freeFrames s = 0 /\
  push s src n =
    Some ({| buf := buf s; w := Z.land (U32.add (w s) 0) (mask s);
             r := r s; mask := mask s |}, 0).
Proof.
  intros Hwf Heq [Hn0 _]. pose proof (freeFrames_empty s Hwf Heq) as Hfree.
  split; [exact Hfree|]. unfold push. rewrite Hfree.
  destruct (Z.gtb_spec n 0) as [_|Hle]; [reflexivity|].
  replace n with 0 by lia. reflexivity.
Qed.

(** The freshly constructed FIFO of capacity 8, a source of five frames. *)
Lemma push_equal_indices_accepts_nothing_witness :
  freeFrames fresh8 = 0 /\
  push fresh8 [11; 22; 33; 44; 55] 5 = Some (fresh8, 0).
Proof.
  refine (push_equal_indices_accepts_nothing fresh8 [11; 22; 33; 44; 55] 5
            wf_fresh8 _ _).
  - reflexivity.
  - unfold U32.in_range, U32.modulus. lia.
Defined.

(** C10.  [push] leaves [r] and [mask] as they were, keeps the length of
    the ring, and changes no slot other than the ones it copies into;
    [pop] leaves [w], [mask] and the whole ring as they were. *)
Theorem push_pop_frame
  (s : FloatFIFO) (src dst : list float32) (n m : Z) :
  (forall s' k,
     push s src n = Some (s', k) ->
     r s' = r s /\ mask s' = mask s /\
     length (buf s') = length (buf s) /\
     forall p : nat,
       (forall j, 0 <= j < k -> slot s (w s + j) <> p) ->
       buf s' !! p = buf s !! p) /\
  (forall s' dst' got,
     pop s dst m = Some (s', dst', got) ->
     w s' = w s /\ mask s' = mask s /\ buf s' = buf s).
Proof.
  split.
  - intros s' k. unfold push.
    destruct (push_loop _ _ _ _ _ _) as [b|] eqn:Hrun; [|discriminate].
    intros [= <- <-]. cbn [buf w r mask].
    destruct (push_loop_frame _ _ _ _ _ _ _ Hrun) as [Hl Hfr].
    repeat split; auto.
    intros p Hp. apply Hfr. intros j Hj. apply (Hp j). lia.
  - intros s' dst' got. unfold pop.
    destruct (pop_loop _ _ _ _ _ _) as [d1|]; [|discriminate].
    destruct (_ <? m).
    + destruct (zero_fill _ _ _); [|discriminate].
      intros [= <- _ _]. auto.
    + intros [= <- _ _]. auto.
Qed.

(** A push of two frames into slots 1 and 2 of a ring of four, and a pop of
    one frame from the same FIFO. *)
Lemma push_pop_frame_witness :
  push one_of_four [22; 33] 2 = Some (mkFloatFIFO [11; 22; 33; 0] 3 0 3, 2) /\
  pop one_of_four [91; 92] 1 = Some (mkFloatFIFO [11; 0; 0; 0] 1 1 3, [11; 92], 1) /\
  (r (mkFloatFIFO [11; 22; 33; 0] 3 0 3) = r one_of_four /\
   [11; 22; 33; 0] !! 3%nat = buf one_of_four !! 3%nat) /\
  (w (mkFloatFIFO [11; 0; 0; 0] 1 1 3) = w one_of_four /\
   buf (mkFloatFIFO [11; 0; 0; 0] 1 1 3) = buf one_of_four).
Proof.
  destruct (push_pop_frame one_of_four [22; 33] [91; 92] 2 1) as [Hpush Hpop].
  split; [reflexivity|]. split; [reflexivity|]. split.
  - destruct (Hpush (mkFloatFIFO [11; 22; 33; 0] 3 0 3) 2 eq_refl)
      as (Hr & _ & _ & Hfr).
    split; [exact Hr|]. apply Hfr. intros j Hj.
    assert (j = 0 \/ j = 1) as [-> | ->] by lia; vm_compute; lia.
  - destruct (Hpop (mkFloatFIFO [11; 0; 0; 0] 1 1 3) [11; 92] 1 eq_refl)
      as (Hw & _ & Hb).
    split; [exact Hw|exact Hb].
Defined.

(** ** The stop entry points *)

Lemma ios_stop_releases (wd : IOS.world) :
  IOS.gAudioUnit (IOS.StopVoiceLoopback wd) = None.
Proof. unfold IOS.StopVoiceLoopback. destruct wd as [[u|] cs]; reflexivity. Qed.

(** With no audio unit held, [StopVoiceLoopback] does nothing at all. *)
Lemma ios_stop_without_unit (wd : IOS.world) :
  IOS.gAudioUnit wd = None -> IOS.StopVoiceLoopback wd = wd.
Proof. unfold IOS.StopVoiceLoopback. intros ->. reflexivity. Qed.

(** C8.  Stopping twice in a row: [stop] has no error result on either
    platform.  On iOS the first call leaves no audio unit held, the session
    is stopped after each call, and the second call changes nothing, not
    even the calls issued to AudioToolbox.  On Android [stop] forwards to
    Oboe's [requestStop] on every open stream; given that [requestStop]
    leaves a stream stopped and leaves a stopped stream as it is, the
    session is stopped after each call and the second call changes
    nothing. *)
Theorem stop_twice_is_idempotent
  (wd : IOS.world)
  (AudioStream : Type) (requestStop : AudioStream -> AudioStream)
  (stream_stopped : AudioStream -> bool)
  (d : Android.FullDuplex AudioStream) :
  (IOS.session (IOS.StopVoiceLoopback wd) = Stopped /\
   IOS.session (IOS.StopVoiceLoopback (IOS.StopVoiceLoopback wd)) = Stopped /\
   IOS.StopVoiceLoopback (IOS.StopVoiceLoopback wd) = IOS.StopVoiceLoopback wd)
  /\
  ((forall a, stream_stopped (requestStop a) = true) ->
   (forall a, stream_stopped a = true -> requestStop a = a) ->
   let stop := Android.stop AudioStream requestStop in
   let session := Android.session AudioStream stream_stopped in
   session (stop d) = Stopped /\
   session (stop (stop d)) = Stopped /\
   stop (stop d) = stop d).
Proof.
  split.
  - pose proof (ios_stop_releases wd) as Hnone.
    rewrite (ios_stop_without_unit _ Hnone).
    unfold IOS.session. rewrite Hnone. auto.
  - intros Hstops Hkeeps stop session.
    assert (Hidem : stop (stop d) = stop d).
    { unfold stop, Android.stop. destruct d as [[a|] [b|]]; simpl;
        rewrite ?(Hkeeps _ (Hstops _)); reflexivity. }
    assert (Hst : session (stop d) = Stopped).
    { unfold session, stop, Android.session, Android.stop, Android.opt_stopped.
      destruct d as [[a|] [b|]]; simpl; rewrite ?Hstops; reflexivity. }
    rewrite Hidem. auto.
Qed.

(** A started iOS session holding unit 7, and two open Oboe streams whose
    state is the flag "stopped". *)
Lemma stop_twice_is_idempotent_witness :
  let wd := IOS.mkWorld (Some 7) [] in
  let d := Android.mkFullDuplex bool (Some false) (Some false) in
  let stop := Android.stop bool (fun _ => true) in
  (IOS.StopVoiceLoopback wd =
     IOS.mkWorld None [IOS.AudioOutputUnitStop 7; IOS.AudioUnitUninitialize 7;
                       IOS.AudioComponentInstanceDispose 7] /\
   IOS.StopVoiceLoopback (IOS.StopVoiceLoopback wd) = IOS.StopVoiceLoopback wd)
  /\
  (Android.session bool id (stop d) = Stopped /\ stop (stop d) = stop d).
Proof.
  intros wd d stop.
  destruct (stop_twice_is_idempotent wd bool (fun _ => true) id d)
    as [(_ & _ & Hios) Handroid].
  split.
  - split; [reflexivity|exact Hios].
  - destruct (Handroid (fun _ => eq_refl) (fun a Ha => eq_sym Ha))
      as (Hs & _ & Hidem).
    split; [exact Hs|exact Hidem].
Defined.

(** * Further properties of the FIFO *)

(** ** The constructor *)

Lemma round_up_pow2_minimal (fuel : nat) (framesPow2 k p : Z) :
  0 <= k <= 31 ->
  round_up_pow2 fuel framesPow2 (2 ^ k) = Some p ->
  p = 2 ^ k \/ p < 2 * framesPow2.
Proof.
  revert k. induction fuel as [|fuel IH]; intros k Hk; [discriminate|].
  simpl. destruct (Z.ltb_spec (2 ^ k) framesPow2) as [Hlt|Hge].
  - destruct (Z.eq_dec k 31) as [->|Hne].
    + change (U32.shl1 (2 ^ 31)) with 0.
      rewrite round_up_pow2_zero by (assert (0 < 2 ^ 31) by lia; lia).
      discriminate.
    + rewrite shl1_pow2 by lia. intros Hp. right.
      destruct (IH (k + 1) ltac:(lia) Hp) as [-> | Hlt2]; [|exact Hlt2].
      rewrite Z.pow_add_r by lia. lia.
  - intros [= <-]. left. reflexivity.
Qed.

Lemma FloatFIFO_new_pow2 (e : Z) :
  0 <= e <= 31 ->
  exists s, FloatFIFO_new (2 ^ e) = Some s /\ capacity s = 2 ^ e.
Proof.
  intros He.
  assert (Hle31 : 2 ^ e <= 2 ^ 31) by (apply Z.pow_le_mono_r; lia).
  destruct (FloatFIFO_new_total (2 ^ e) Hle31) as [s Hs].
  exists s. split; [exact Hs|]. revert Hs. unfold FloatFIFO_new.
  destruct (round_up_pow2 ctor_fuel (2 ^ e) 1) as [p|] eqn:E; [|discriminate].
  intros [= <-]. change 1 with (2 ^ 0) in E.
  destruct (round_up_pow2_result ctor_fuel (2 ^ e) 0 p ltac:(lia) E)
    as (k & Hk & -> & Hle).
  pose proof (round_up_pow2_minimal ctor_fuel (2 ^ e) 0 (2 ^ k) ltac:(lia) E)
    as Hmin.
  unfold capacity. cbn [buf]. rewrite length_replicate, Z2Nat.id by lia.
  f_equal. apply Z.pow_le_mono_r_iff in Hle; try lia.
  destruct Hmin as [H1|Hlt].
  - change (2 ^ 0) with 1 in H1.
    destruct (Z.eq_dec k 0) as [->|Hne]; [lia|].
    assert (2 ^ 1 <= 2 ^ k) by (apply Z.pow_le_mono_r; lia).
    change (2 ^ 1) with 2 in *. lia.
  - replace (2 * 2 ^ e) with (2 ^ (e + 1)) in Hlt
      by (rewrite Z.pow_add_r by lia; lia).
    apply Z.pow_lt_mono_r_iff in Hlt; lia.
Qed.

(** The constructor rounds a request of at most [2^31] frames up to the
    smallest power of two that holds it (1 for a request of 0), clears the
    storage and starts both indices at 0. *)
Theorem ctor_smallest_power_of_two (framesPow2 : Z) :
  framesPow2 <= 2 ^ 31 ->
  exists s e,
    FloatFIFO_new framesPow2 = Some s /\
    0 <= e <= 31 /\ capacity s = 2 ^ e /\ mask s = 2 ^ e - 1 /\
    framesPow2 <= 2 ^ e /\ (e = 0 \/ 2 ^ (e - 1) < framesPow2) /\
    w s = 0 /\ r s = 0 /\
    buf s = replicate (Z.to_nat (2 ^ e)) silence.
Proof.
  intros Hsz. destruct (FloatFIFO_new_total framesPow2 Hsz) as [s Hs].
  pose proof (FloatFIFO_new_spec _ _ Hs) as (_ & Hw & Hr & _ & Hbuf).
  revert Hs. unfold FloatFIFO_new.
  destruct (round_up_pow2 ctor_fuel framesPow2 1) as [p|] eqn:E; [|discriminate].
  intros Hs. change 1 with (2 ^ 0) in E.
  destruct (round_up_pow2_result ctor_fuel framesPow2 0 p ltac:(lia) E)
    as (e & He & Hp & Hle).
  pose proof (round_up_pow2_minimal ctor_fuel framesPow2 0 p ltac:(lia) E) as Hmin.
  pose proof (pow2_le_modulus e ltac:(lia)) as Hpe.
  assert (Hcap : capacity s = 2 ^ e).
  { injection Hs as <-. subst p. unfold capacity. cbn [buf].
    rewrite length_replicate. lia. }
  assert (Hmask : mask s = 2 ^ e - 1).
  { injection Hs as <-. subst p. cbn [mask]. unfold U32.sub.
    apply wrap_small. unfold U32.in_range. lia. }
  exists s, e. rewrite Hs. split; [reflexivity|].
  split; [lia|]. split; [exact Hcap|]. split; [exact Hmask|].
  split; [lia|]. split; [|rewrite <- Hcap; auto].
  destruct (Z.eq_dec e 0) as [He0|Hne]; [left; exact He0|right].
  assert (He2 : 2 ^ e = 2 * 2 ^ (e - 1)).
  { rewrite <- (Z.pow_succ_r 2 (e - 1)) by lia. f_equal. lia. }
  destruct Hmin as [H1|Hlt2]; [|lia].
  assert (0 < 2 ^ (e - 1)) by (apply Z.pow_pos_nonneg; lia).
  change (2 ^ 0) with 1 in H1. lia.
Qed.

Lemma ctor_smallest_power_of_two_witness :
  exists s e,
    FloatFIFO_new 5 = Some s /\
    0 <= e <= 31 /\ capacity s = 2 ^ e /\ mask s = 2 ^ e - 1 /\
    5 <= 2 ^ e /\ (e = 0 \/ 2 ^ (e - 1) < 5) /\
    w s = 0 /\ r s = 0 /\
    buf s = replicate (Z.to_nat (2 ^ e)) silence.
Proof. apply (ctor_smallest_power_of_two 5). lia. Defined.

(** For a request above [2^31] frames the size is shifted to 0 before it
    reaches the request, and the loop of the constructor never ends. *)
Theorem ctor_never_returns_above_2_31 (fuel : nat) (framesPow2 : Z) :
  2 ^ 31 < framesPow2 ->
  round_up_pow2 fuel framesPow2 1 = None /\ FloatFIFO_new framesPow2 = None.
Proof.
  intros Hbig.
  assert (Hloop : forall fl, round_up_pow2 fl framesPow2 1 = None).
  { intros fl. apply (round_up_pow2_diverges fl framesPow2 0); [lia|exact Hbig]. }
  split; [apply Hloop|]. unfold FloatFIFO_new. rewrite Hloop. reflexivity.
Qed.

Lemma ctor_never_returns_above_2_31_witness :
  round_up_pow2 1000 (2 ^ 31 + 1) 1 = None /\ FloatFIFO_new (2 ^ 31 + 1) = None.
Proof. apply (ctor_never_returns_above_2_31 1000 (2 ^ 31 + 1)). lia. Defined.

(** ** Single calls on a ring that holds frames *)

Lemma push_shape (s s1 : FloatFIFO) (src : list float32) (n k : Z) :
  push s src n = Some (s1, k) ->
  mask s1 = mask s /\ r s1 = r s /\ capacity s1 = capacity s.
Proof.
  unfold push.
  destruct (push_loop _ _ _ _ _ _) as [b|] eqn:Hrun; [|discriminate].
  intros [= <- _]. destruct (push_loop_frame _ _ _ _ _ _ _ Hrun) as [Hl _].
  unfold capacity. cbn [buf r mask]. rewrite Hl. auto.
Qed.

Lemma pop_shape (s s1 : FloatFIFO) (dst dst' : list float32) (n got : Z) :
  pop s dst n = Some (s1, dst', got) ->
  mask s1 = mask s /\ w s1 = w s /\ buf s1 = buf s.
Proof.
  unfold pop.
  destruct (pop_loop _ _ _ _ _ _) as [d1|]; [|discriminate].
  destruct (_ <? n).
  - destruct (zero_fill _ _ _); [|discriminate]. intros [= <- _ _]. auto.
  - intros [= <- _ _]. auto.
Qed.

Lemma freeFrames_le (s : FloatFIFO) :
  wf s -> freeFrames s <= capacity s - avail s /\
          (avail s = 0 -> freeFrames s = 0).
Proof.
  intros Hwf. pose proof (avail_range s Hwf) as Hav.
  pose proof (mask_capacity s Hwf) as Hmk.
  destruct (Z.eq_dec (avail s) 0) as [H0|Hpos].
  - assert (freeFrames s = 0); [|lia].
    destruct Hwf as (e & He & Hm & Hc & _).
    destruct (freeFrames_mod s e He Hm) as [-> _].
    rewrite H0, Z.sub_0_r. apply Z_mod_same_full.
  - rewrite (freeFrames_nonempty s Hwf) by lia. lia.
Qed.

Lemma ring_read_take (s : FloatFIFO) (from : Z) (n m : nat) :
  (n <= m)%nat -> take n (ring_read s from m) = ring_read s from n.
Proof.
  intros Hnm. unfold ring_read. rewrite <- fmap_take, take_seq.
  rewrite Nat.min_l by exact Hnm. reflexivity.
Qed.

(** A pop of no more frames than are readable returns them all, oldest
    first, writes no silence, leaves the destination beyond them alone and
    keeps the younger frames readable in order. *)
Theorem pop_within_available (s : FloatFIFO) (dst : list float32) (n : Z) :
  wf s -> 0 <= n <= avail s -> n <= Z.of_nat (length dst) ->
  exists s1,
    pop s dst n =
      Some (s1, take (Z.to_nat n) (readable s) ++ drop (Z.to_nat n) dst, n) /\
    readable s1 = drop (Z.to_nat n) (readable s) /\
    avail s1 = avail s - n /\ w s1 = w s /\ buf s1 = buf s.
Proof.
  intros Hwf Hn Hlen.
  destruct (pop_step s dst n Hwf ltac:(lia))
    as (s1 & dst' & got & Hpop & Hgot & _ & _ & Hav1 & Hread).
  assert (got = n) by lia. subst got.
  pose proof (pop_spec s dst n Hwf ltac:(lia)) as Hspec. cbv zeta in Hspec.
  rewrite Z.min_l in Hspec by lia. rewrite Z.sub_diag in Hspec. simpl in Hspec.
  rewrite Hspec in Hpop. injection Hpop as Hs1 Hdst.
  destruct (pop_shape s s1 dst dst' n (Z.min n (avail s))) as (_ & Hw & Hb).
  { rewrite Z.min_l by lia. rewrite Hspec. subst s1 dst'. reflexivity. }
  exists s1. unfold readable at 1.
  rewrite ring_read_take by lia. rewrite Hspec, Hs1.
  split; [reflexivity|]. split; [|rewrite Hav1, H; auto].
  rewrite Hread, H. apply eq_sym, drop_app_length'.
  rewrite <- Hdst, length_take, length_app, length_ring_read. lia.
Qed.

Lemma pop_within_available_witness :
  exists s1,
    pop four_of_eight [91; 92; 93] 2 = Some (s1, [11; 22; 93], 2) /\
    readable s1 = [33; 44] /\
    avail s1 = 2 /\ w s1 = 4 /\ buf s1 = [11; 22; 33; 44; 0; 0; 0; 0].
Proof.
  refine (pop_within_available four_of_eight [91; 92; 93] 2 wf_four_of_eight _ _).
  - vm_compute. split; discriminate.
  - simpl. lia.
Defined.

(** A push into a ring that holds at least one frame and keeps at least one
    slot free after it accepts every frame offered and queues them, in
    order, behind the frames already readable. *)
Theorem push_with_room_appends (s : FloatFIFO) (src : list float32) (n : Z) :
  wf s -> 1 <= avail s -> 0 <= n <= Z.of_nat (length src) ->
  avail s + n < capacity s ->
  exists s1,
    push s src n = Some (s1, n) /\
    readable s1 = readable s ++ take (Z.to_nat n) src /\
    avail s1 = avail s + n /\ r s1 = r s.
Proof.
  intros Hwf Hpos Hn Hroom.
  destruct (push_step s src n Hwf Hn)
    as (s1 & k & Hpush & Hk & _ & _ & Hav1 & Hread).
  rewrite (freeFrames_nonempty s Hwf) in Hk by lia.
  assert (k = n) by lia. subst k.
  destruct (push_shape _ _ _ _ _ Hpush) as (_ & Hr & _).
  exists s1. rewrite Hpush, H. split; [reflexivity|].
  rewrite H in Hread, Hav1. split; [apply Hread; lia|].
  rewrite Z.mod_small in Hav1 by lia. auto.
Qed.

Lemma push_with_room_appends_witness :
  exists s1,
    push four_of_eight [55; 66; 77] 2 = Some (s1, 2) /\
    readable s1 = [11; 22; 33; 44; 55; 66] /\
    avail s1 = 6 /\ r s1 = 0.
Proof.
  refine (push_with_room_appends four_of_eight [55; 66; 77] 2
            wf_four_of_eight _ _ _).
  - vm_compute. discriminate.
  - simpl. lia.
  - vm_compute. reflexivity.
Defined.

(** A push that reaches the last free slot of a ring that holds frames
    takes exactly the free slots, and the ring then reads as empty: the
    write index has come round to the read index, and all the frames in
    the ring, the old and the new, are out of reach of [pop]. *)
Theorem push_to_the_brim_empties (s : FloatFIFO) (src : list float32) (n : Z) :
  wf s -> 1 <= avail s -> capacity s - avail s <= n <= Z.of_nat (length src) ->
  exists s1,
    push s src n = Some (s1, capacity s - avail s) /\
    avail s1 = 0 /\ readable s1 = [] /\ freeFrames s1 = 0.
Proof.
  intros Hwf Hpos Hn. pose proof (avail_range s Hwf) as Hav.
  pose proof (mask_capacity s Hwf) as Hmk.
  destruct (push_step s src n Hwf ltac:(lia))
    as (s1 & k & Hpush & Hk & _ & Hwf1 & Hav1 & _).
  rewrite (freeFrames_nonempty s Hwf) in Hk by lia.
  assert (Hkc : k = capacity s - avail s) by lia.
  assert (Hz : avail s1 = 0).
  { rewrite Hav1, Hkc.
    replace (avail s + (capacity s - avail s)) with (capacity s) by lia.
    apply Z_mod_same_full. }
  exists s1. rewrite Hpush, Hkc. split; [reflexivity|]. split; [exact Hz|].
  split; [unfold readable; rewrite Hz; reflexivity|].
  apply (freeFrames_le s1 Hwf1), Hz.
Qed.

Lemma push_to_the_brim_empties_witness :
  exists s1,
    push one_of_four [22; 33; 44; 55] 4 = Some (s1, 3) /\
    avail s1 = 0 /\ readable s1 = [] /\ freeFrames s1 = 0.
Proof.
  refine (push_to_the_brim_empties one_of_four [22; 33; 44; 55] 4
            wf_one_of_four _ _).
  - vm_compute. discriminate.
  - vm_compute. split; discriminate.
Defined.

(** Round trip on a ring that holds frames: frames pushed with a slot to
    spare, then a pop of everything readable, come back behind the frames
    that were there before, all in order, and the ring is then empty. *)
Theorem push_then_pop_round_trip
  (s : FloatFIFO) (src dst : list float32) (n : Z) :
  wf s -> 1 <= avail s -> 0 <= n <= Z.of_nat (length src) ->
  avail s + n < capacity s -> avail s + n <= Z.of_nat (length dst) ->
  exists s1 s2,
    push s src n = Some (s1, n) /\
    pop s1 dst (avail s + n) =
      Some (s2,
            readable s ++ take (Z.to_nat n) src
              ++ drop (Z.to_nat (avail s + n)) dst,
            avail s + n) /\
    avail s2 = 0.
Proof.
  intros Hwf Hpos Hn Hroom Hdst.
  destruct (push_step s src n Hwf Hn)
    as (s1 & k & Hpush & Hk & _ & Hwf1 & Hav1 & Hread).
  rewrite (freeFrames_nonempty s Hwf) in Hk by lia.
  assert (k = n) by lia. subst k. rewrite H in Hpush, Hav1, Hread.
  rewrite Z.mod_small in Hav1 by lia. specialize (Hread ltac:(lia)).
  destruct (pop_step s1 dst (avail s + n) Hwf1 ltac:(lia))
    as (s2 & dst' & got & Hpop & Hgot & _ & _ & Hav2 & _).
  pose proof (pop_spec s1 dst (avail s + n) Hwf1 ltac:(lia)) as Hspec.
  cbv zeta in Hspec. rewrite Hav1, Z.min_id in Hspec.
  rewrite Z.sub_diag in Hspec. simpl in Hspec.
  rewrite Hspec in Hpop. injection Hpop as Hs2 Hd Hg.
  exists s1, s2. split; [exact Hpush|]. split; [|lia].
  rewrite Hspec, Hs2. unfold readable in Hread. rewrite Hav1 in Hread.
  rewrite Hread, <- app_assoc. reflexivity.
Qed.

Lemma push_then_pop_round_trip_witness :
  exists s1 s2,
    push one_of_four [22; 33; 99] 2 = Some (s1, 2) /\
    pop s1 [91; 92; 93; 94] 3 = Some (s2, [11; 22; 33; 94], 3) /\
    avail s2 = 0.
Proof.
  refine (push_then_pop_round_trip one_of_four [22; 33; 99] [91; 92; 93; 94] 2
            wf_one_of_four _ _ _ _).
  - vm_compute. discriminate.
  - simpl. lia.
  - vm_compute. reflexivity.
  - vm_compute. discriminate.
Defined.

(** ** The copies of the FIFO agree *)

Lemma alsa_push_eq (s : FloatFIFO) (src : list float32) (n : Z) :
  Alsa.push s src n = fst <$> push s src n.
Proof.
  unfold Alsa.push, push, freeFrames.
  destruct (push_loop _ _ _ _ _ _); reflexivity.
Qed.

Lemma alsa_pop_eq (s : FloatFIFO) (dst : list float32) (n : Z) :
  Alsa.pop s dst n = (fun res => (res.1.1, res.1.2)) <$> pop s dst n.
Proof.
  unfold Alsa.pop, pop, avail.
  set (a := Z.land (U32.sub (w s) (r s)) (mask s)).
  assert (Hgot : (if n <? a then n else a) = (if n <=? a then n else a)).
  { destruct (Z.ltb_spec n a), (Z.leb_spec n a); lia. }
  rewrite Hgot.
  destruct (pop_loop _ _ _ _ _ _); [|reflexivity].
  destruct (_ <? n); [|reflexivity].
  destruct (zero_fill _ _ _); reflexivity.
Qed.

(** The [push] and [pop] of the ALSA, iOS and Android programs change the
    FIFO and the destination exactly as those of the macOS program do;
    they only keep the count to themselves. *)
Theorem alsa_copy_agrees (s : FloatFIFO) (src dst : list float32) (n : Z) :
  Alsa.push s src n = fst <$> push s src n /\
  Alsa.pop s dst n = (fun res => (res.1.1, res.1.2)) <$> pop s dst n.
Proof. split; [apply alsa_push_eq|apply alsa_pop_eq]. Qed.

(** ** Whole call sequences *)

(** No call within contract ever indexes the ring, the source or the
    destination out of bounds: on a well-formed ring every sequence runs
    to its end, one event per call, and the ring keeps its mask, its
    capacity and its well-formedness. *)
Theorem calls_in_contract_stay_in_bounds (s : FloatFIFO) (cs : list call) :
  wf s -> Forall call_ok cs ->
  exists s' log,
    run s cs = Some (s', log) /\ wf s' /\
    mask s' = mask s /\ capacity s' = capacity s /\
    length log = length cs.
Proof.
  revert s. induction cs as [|c cs IH]; intros s Hwf Hok.
  - exists s, []. simpl. auto.
  - inversion Hok as [|c' cs' Hc Hcs]; subst.
    destruct c as [src n|dst n]; destruct Hc as [[Hn0 _] Hlen].
    + destruct (push_step s src n Hwf (conj Hn0 Hlen))
        as (s1 & k & Hpush & _ & _ & Hwf1 & _).
      destruct (push_shape _ _ _ _ _ Hpush) as (Hm & _ & Hc).
      destruct (IH s1 Hwf1 Hcs) as (s' & log & Hrun & Hwf' & Hm' & Hc' & Hl).
      exists s', (Pushed src n k :: log). simpl. rewrite Hpush, Hrun.
      split; [reflexivity|]. split; [exact Hwf'|]. split; [congruence|].
      split; [congruence|]. simpl. lia.
    + destruct (pop_step s dst n Hwf (conj Hn0 Hlen))
        as (s1 & dst' & got & Hpop & _ & _ & Hwf1 & _).
      destruct (pop_shape _ _ _ _ _ _ Hpop) as (Hm & _ & Hb).
      destruct (IH s1 Hwf1 Hcs) as (s' & log & Hrun & Hwf' & Hm' & Hc' & Hl).
      exists s', (Popped dst' n got :: log). simpl. rewrite Hpop, Hrun.
      split; [reflexivity|]. split; [exact Hwf'|]. split; [congruence|].
      split; [|simpl; lia].
      rewrite Hc'. unfold capacity. rewrite Hb. reflexivity.
Qed.

Lemma calls_in_contract_stay_in_bounds_witness :
  exists s' log,
    run one_of_four [CallPush [22; 33] 2; CallPop [91; 92; 93; 94; 95] 5;
                     CallPush [44] 1]
      = Some (s', log) /\ wf s' /\
    mask s' = 3 /\ capacity s' = 4 /\ length log = 3%nat.
Proof.
  apply (calls_in_contract_stay_in_bounds one_of_four); [exact wf_one_of_four|].
  repeat constructor; unfold U32.modulus; simpl; lia.
Defined.

(** Whatever a well-formed ring holds at the start, the real frames the
    pops hand out are, in order, a prefix of the frames readable at the
    start followed by the frames the pushes accepted. *)
Theorem fifo_order_from_any_ring (s : FloatFIFO) (cs : list call) :
  wf s -> Forall call_ok cs ->
  exists s' log,
    run s cs = Some (s', log) /\
    real_frames log `prefix_of` (readable s ++ accepted_frames log).
Proof.
  intros Hwf Hok.
  destruct (run_fifo_order cs s Hwf Hok) as (s' & log & Hrun & _ & Hpre & _).
  exists s', log. auto.
Qed.

Lemma fifo_order_from_any_ring_witness :
  exists s' log,
    run four_of_eight [CallPop [91; 92] 2; CallPush [55; 66] 2;
                       CallPop [93; 94; 95] 3]
      = Some (s', log) /\
    real_frames log `prefix_of` ([11; 22; 33; 44] ++ accepted_frames log).
Proof.
  apply (fifo_order_from_any_ring four_of_eight); [exact wf_four_of_eight|].
  repeat constructor; unfold U32.modulus; simpl; lia.
Defined.

(** A ring with nothing readable never gets out of that state: every later
    push accepts nothing and every later pop returns 0 and fills the slots
    it was asked for with silence. *)
Theorem empty_ring_stays_silent (s : FloatFIFO) (cs : list call) :
  wf s -> avail s = 0 -> Forall call_ok cs ->
  exists s' log,
    run s cs = Some (s', log) /\ avail s' = 0 /\ buf s' = buf s /\
    Forall event_silent log.
Proof.
  revert s. induction cs as [|c cs IH]; intros s Hwf Hav Hok.
  - exists s, []. simpl. auto.
  - inversion Hok as [|c' cs' Hc Hcs]; subst.
    pose proof (capacity_pos s Hwf) as Hcap.
    destruct c as [src n|dst n]; destruct Hc as [[Hn0 _] Hlen].
    + pose proof (proj2 (freeFrames_le s Hwf) Hav) as Hfree.
      destruct (push_spec s src n Hwf (conj Hn0 Hlen)) as (b' & Hspec & _ & Hfr & _).
      destruct (push_step s src n Hwf (conj Hn0 Hlen))
        as (s1 & k & Hpush & Hk & _ & Hwf1 & Hav1 & _).
      assert (Hk0 : k = 0) by lia.
      rewrite Hav, Hk0, Z.mod_0_l in Hav1 by lia.
      assert (Hb1 : buf s1 = buf s).
      { rewrite Hspec in Hpush. injection Hpush as <- _. cbn [buf].
        apply list_eq. intros p. apply Hfr. intros j Hj. lia. }
      destruct (IH s1 Hwf1 Hav1 Hcs) as (s' & log & Hrun & Hav' & Hb' & Hsil).
      exists s', (Pushed src n k :: log). simpl. rewrite Hpush, Hrun.
      split; [reflexivity|]. split; [exact Hav'|]. split; [congruence|].
      constructor; [exact Hk0|exact Hsil].
    + destruct (pop_step s dst n Hwf (conj Hn0 Hlen))
        as (s1 & dst' & got & Hpop & Hgot & Hpad & Hwf1 & Hav1 & _).
      destruct (pop_shape _ _ _ _ _ _ Hpop) as (_ & _ & Hb1).
      assert (Hg0 : got = 0) by lia.
      destruct (IH s1 Hwf1 ltac:(lia) Hcs) as (s' & log & Hrun & Hav' & Hb' & Hsil).
      exists s', (Popped dst' n got :: log). simpl. rewrite Hpop, Hrun.
      split; [reflexivity|]. split; [exact Hav'|]. split; [congruence|].
      constructor; [|exact Hsil].
      simpl. split; [exact Hg0|]. destruct Hpad as [_ Hpad].
      rewrite Hpad, Hg0, Z.sub_0_r. reflexivity.
Qed.

Lemma empty_ring_stays_silent_witness :
  exists s' log,
    run fresh4 [CallPush [11; 22] 2; CallPop [91; 92; 93] 3; CallPush [33] 1]
      = Some (s', log) /\ avail s' = 0 /\ buf s' = buf fresh4 /\
    Forall event_silent log.
Proof.
  apply (empty_ring_stays_silent fresh4).
  - solve_wf 2.
  - reflexivity.
  - repeat constructor; unfold U32.modulus; simpl; lia.
Defined.

(** Frames are lost a whole ring at a time and in no other way: over any
    call sequence, the frames readable at the start plus the frames
    accepted equal the frames returned plus the frames readable at the end
    plus a whole number of capacities (one for each push that took the
    last free slot). *)
Theorem frames_are_lost_by_the_ring (s : FloatFIFO) (cs : list call) :
  wf s -> Forall call_ok cs ->
  exists s' log lost,
    run s cs = Some (s', log) /\ 0 <= lost /\
    avail s + accepted_count log =
      returned_count log + avail s' + lost * capacity s.
Proof.
  revert s. induction cs as [|c cs IH]; intros s Hwf Hok.
  - exists s, [], 0. simpl. split; [reflexivity|]. lia.
  - inversion Hok as [|c' cs' Hc Hcs]; subst.
    pose proof (capacity_pos s Hwf) as Hcap.
    pose proof (avail_range s Hwf) as Hav.
    pose proof (mask_capacity s Hwf) as Hmk.
    destruct c as [src n|dst n]; destruct Hc as [[Hn0 _] Hlen].
    + destruct (push_step s src n Hwf (conj Hn0 Hlen))
        as (s1 & k & Hpush & Hk & Hkn & Hwf1 & Hav1 & _).
      destruct (push_shape _ _ _ _ _ Hpush) as (_ & _ & Hc1).
      destruct (freeFrames_le s Hwf) as [Hfle _].
      destruct (IH s1 Hwf1 Hcs) as (s' & log & lost & Hrun & Hl & Heq).
      rewrite Hc1 in Heq.
      destruct (Z.lt_ge_cases (avail s + k) (capacity s)) as [Hroom|Hfull].
      * rewrite Z.mod_small in Hav1 by lia.
        exists s', (Pushed src n k :: log), lost. simpl. rewrite Hpush, Hrun.
        split; [reflexivity|]. split; [exact Hl|]. lia.
      * assert (Hsum : avail s + k = capacity s) by lia.
        rewrite Hsum, Z_mod_same_full in Hav1.
        exists s', (Pushed src n k :: log), (lost + 1). simpl.
        rewrite Hpush, Hrun. split; [reflexivity|]. split; [lia|]. lia.
    + destruct (pop_step s dst n Hwf (conj Hn0 Hlen))
        as (s1 & dst' & got & Hpop & Hgot & _ & Hwf1 & Hav1 & _).
      destruct (pop_shape _ _ _ _ _ _ Hpop) as (_ & _ & Hb1).
      assert (Hc1 : capacity s1 = capacity s) by (unfold capacity; rewrite Hb1; auto).
      destruct (IH s1 Hwf1 Hcs) as (s' & log & lost & Hrun & Hl & Heq).
      rewrite Hc1 in Heq.
      exists s', (Popped dst' n got :: log), lost. simpl. rewrite Hpop, Hrun.
      split; [reflexivity|]. split; [exact Hl|]. lia.
Qed.

Lemma frames_are_lost_by_the_ring_witness :
  exists s' log lost,
    run one_of_four [CallPush [22; 33; 44] 3; CallPop [91; 92] 2]
      = Some (s', log) /\ 0 <= lost /\
    avail one_of_four + accepted_count log =
      returned_count log + avail s' + lost * capacity one_of_four.
Proof.
  apply (frames_are_lost_by_the_ring one_of_four); [exact wf_one_of_four|].
  repeat constructor; unfold U32.modulus; simpl; lia.
Defined.

(** * The callbacks of the macOS program *)

Lemma length_temp_after (n : Z) (rr : MacOS.render) :
  length (MacOS.temp_after n rr) = Z.to_nat n.
Proof.
  unfold MacOS.temp_after. rewrite length_take, length_app, length_replicate. lia.
Qed.

(** [InputCallback] hands back the status of [AudioUnitRender] and nothing
    else: on an error it writes one line to [stderr] and leaves the FIFO
    alone; on success it pushes the rendered frames and returns [noErr]
    whether [push] took all of them, some, or none. *)
Theorem input_callback_returns_render_status
  (isprint : Z -> bool) (fifo : FloatFIFO) (stderr : list string)
  (inNumberFrames : Z) (rr : MacOS.render) :
  wf fifo -> U32.in_range inNumberFrames ->
  exists fifo' stderr',
    MacOS.InputCallback isprint fifo stderr inNumberFrames rr
      = Some (fifo', stderr', MacOS.status rr) /\
    (MacOS.status rr <> MacOS.noErr ->
       fifo' = fifo /\
       stderr' = stderr ++ [MacOS.print_error isprint "AudioUnitRender (input)"
                              (MacOS.status rr)]) /\
    (MacOS.status rr = MacOS.noErr ->
       stderr' = stderr /\
       push fifo (MacOS.temp_after inNumberFrames rr) inNumberFrames
         = Some (fifo', Z.min inNumberFrames (freeFrames fifo))).
Proof.
  intros Hwf [Hn0 _]. unfold MacOS.InputCallback.
  destruct (Z.eqb_spec (MacOS.status rr) MacOS.noErr) as [Heq|Hne]; simpl.
  - destruct (push_spec fifo (MacOS.temp_after inNumberFrames rr) inNumberFrames Hwf)
      as (b' & Hpush & _); [rewrite length_temp_after; lia|].
    rewrite Hpush. eexists _, stderr. rewrite Heq.
    split; [reflexivity|]. split; [intros Hbad; contradiction|].
    intros _. split; reflexivity.
  - exists fifo, (stderr ++ [MacOS.print_error isprint "AudioUnitRender (input)"
                               (MacOS.status rr)]).
    split; [reflexivity|]. split; [auto|]. intros Hbad. contradiction.
Qed.

Lemma input_callback_returns_render_status_witness :
  exists fifo' stderr',
    MacOS.InputCallback (fun _ => false) four_of_eight [] 6
      (MacOS.mkRender 0 [55; 66; 77; 88; 99; 111])
      = Some (fifo', stderr', 0) /\
    (0 <> MacOS.noErr ->
       fifo' = four_of_eight /\
       stderr' = [] ++ [MacOS.print_error (fun _ => false)
                          "AudioUnitRender (input)" 0]) /\
    (0 = MacOS.noErr ->
       stderr' = [] /\
       push four_of_eight
            (MacOS.temp_after 6 (MacOS.mkRender 0 [55; 66; 77; 88; 99; 111])) 6
         = Some (fifo', Z.min 6 (freeFrames four_of_eight))).
Proof.
  apply (input_callback_returns_render_status (fun _ => false) four_of_eight []
           6 (MacOS.mkRender 0 [55; 66; 77; 88; 99; 111]) wf_four_of_eight).
  unfold U32.in_range, U32.modulus. lia.
Defined.

(** [RenderCallback] always returns [noErr] and always writes every one
    of the [inNumberFrames] output samples: the oldest readable frames
    first, silence for what the FIFO cannot supply; the output beyond them
    is not touched. *)
Theorem render_callback_fills_the_buffer
  (fifo : FloatFIFO) (out : list float32) (inNumberFrames : Z) :
  wf fifo -> U32.in_range inNumberFrames ->
  inNumberFrames <= Z.of_nat (length out) ->
  let got := Z.min inNumberFrames (avail fifo) in
  exists fifo' out',
    MacOS.RenderCallback fifo out inNumberFrames
      = Some (fifo', out', MacOS.noErr) /\
    length out' = length out /\
    take (Z.to_nat inNumberFrames) out' =
      take (Z.to_nat got) (readable fifo)
        ++ replicate (Z.to_nat (inNumberFrames - got)) silence /\
    drop (Z.to_nat inNumberFrames) out' = drop (Z.to_nat inNumberFrames) out /\
    avail fifo' = avail fifo - got.
Proof.
  intros Hwf [Hn0 _] Hlen got. pose proof (avail_range fifo Hwf) as Hav.
  destruct (pop_step fifo out inNumberFrames Hwf (conj Hn0 Hlen))
    as (s1 & dst' & g & Hpop & Hg & _ & _ & Hav1 & _).
  pose proof (pop_spec fifo out inNumberFrames Hwf (conj Hn0 Hlen)) as Hspec.
  cbv zeta in Hspec. fold got in Hspec, Hg. subst g.
  rewrite Hspec in Hpop. injection Hpop as Hs1 Hd.
  unfold MacOS.RenderCallback. rewrite Hspec. eexists _, _.
  split; [reflexivity|]. rewrite Hs1.
  assert (Hrr : ring_read fifo (r fifo) (Z.to_nat got)
                = take (Z.to_nat got) (readable fifo)).
  { unfold readable. rewrite ring_read_take by lia. reflexivity. }
  repeat split.
  - rewrite !length_app, length_ring_read, length_replicate, length_drop. lia.
  - rewrite app_assoc, <- Hrr. apply take_app_length'.
    rewrite length_app, length_ring_read, length_replicate. lia.
  - rewrite app_assoc. apply drop_app_length'.
    rewrite length_app, length_ring_read, length_replicate. lia.
  - exact Hav1.
Qed.

Lemma render_callback_fills_the_buffer_witness :
  exists fifo' out',
    MacOS.RenderCallback four_of_eight [91; 92; 93; 94; 95; 96; 97] 6
      = Some (fifo', out', MacOS.noErr) /\
    length out' = 7%nat /\
    take 6 out' = [11; 22; 33; 44] ++ [silence; silence] /\
    drop 6 out' = [97] /\
    avail fifo' = 0.
Proof.
  refine (render_callback_fills_the_buffer four_of_eight
            [91; 92; 93; 94; 95; 96; 97] 6 wf_four_of_eight _ _).
  - unfold U32.in_range, U32.modulus. lia.
  - simpl. lia.
Defined.

Lemma play_idle (isprint : Z -> bool) (g : FloatFIFO) (cbs : list MacOS.callback) :
  idle g -> Forall MacOS.callback_ok cbs ->
  forall stderr,
  exists stderr' outs,
    MacOS.play isprint g stderr cbs = Some (g, stderr', outs) /\
    Forall MacOS.outcome_silent outs.
Proof.
  intros Hidle. induction cbs as [|cb cbs IH]; intros Hok stderr.
  - exists stderr, []. simpl. auto.
  - inversion Hok as [|cb' cbs' Hcb Hcbs]; subst.
    destruct cb as [n rr|out n].
    + destruct Hcb as [Hn0 _]. simpl. unfold MacOS.InputCallback.
      destruct (Z.eqb_spec (MacOS.status rr) MacOS.noErr) as [Heq|Hne]; simpl.
      * rewrite (push_idle g _ n Hidle Hn0).
        destruct (IH Hcbs stderr) as (stderr' & outs & -> & Hsil).
        eexists _, _. split; [reflexivity|]. constructor; [exact I|exact Hsil].
      * destruct (IH Hcbs (stderr ++ [MacOS.print_error isprint
                    "AudioUnitRender (input)" (MacOS.status rr)]))
          as (stderr' & outs & -> & Hsil).
        eexists _, _. split; [reflexivity|]. constructor; [exact I|exact Hsil].
    + destruct Hcb as [[Hn0 _] Hlen]. simpl. unfold MacOS.RenderCallback.
      rewrite (pop_idle g out n Hidle (conj Hn0 Hlen)).
      destruct (IH Hcbs stderr) as (stderr' & outs & -> & Hsil).
      eexists _, _. split; [reflexivity|]. constructor; [|exact Hsil].
      simpl. split; [reflexivity|].
      apply take_app_length'. rewrite length_replicate. reflexivity.
Qed.

(** The program as it stands plays silence: on the FIFO it constructs
    ([gFifo], [1 << 16] frames), whatever the microphone delivers and in
    whatever order the input and render callbacks come, every render
    callback returns [noErr] with nothing but zero samples, and the FIFO
    never changes. *)
Theorem macos_program_plays_silence
  (isprint : Z -> bool) (cbs : list MacOS.callback) :
  Forall MacOS.callback_ok cbs ->
  exists g stderr' outs,
    MacOS.gFifo = Some g /\ capacity g = 65536 /\
    MacOS.play isprint g [] cbs = Some (g, stderr', outs) /\
    Forall MacOS.outcome_silent outs.
Proof.
  intros Hok. unfold MacOS.gFifo. change (Z.shiftl 1 16) with 65536.
  destruct (FloatFIFO_new_pow2 16) as (g & Hg & Hcap); [lia|].
  change (2 ^ 16) with 65536 in Hg, Hcap. rewrite Hg.
  pose proof (FloatFIFO_new_idle _ _ Hg) as Hidle.
  destruct (play_idle isprint g cbs Hidle Hok []) as (stderr' & outs & Hplay & Hsil).
  exists g, stderr', outs. auto.
Qed.

Lemma macos_program_plays_silence_witness :
  exists g stderr' outs,
    MacOS.gFifo = Some g /\ capacity g = 65536 /\
    MacOS.play (fun _ => false) g []
      [MacOS.Input 3 (MacOS.mkRender 0 [11; 22; 33]);
       MacOS.Render [91; 92; 93; 94] 3;
       MacOS.Input 2 (MacOS.mkRender (-50) []);
       MacOS.Render [95; 96] 2]
      = Some (g, stderr', outs) /\
    Forall MacOS.outcome_silent outs.
Proof.
  apply (macos_program_plays_silence (fun _ => false)).
  repeat constructor; unfold U32.modulus; simpl; lia.
Defined.

(** ** [print_error] *)

Lemma byte_of_word (u sh : Z) :
  0 <= sh -> Z.land (Z.shiftr u sh) 255 = (u / 2 ^ sh) mod 256.
Proof.
  intros Hsh. change 255 with (Z.ones 8).
  rewrite Z.land_ones, Z.shiftr_div_pow2 by lia. reflexivity.
Qed.

Lemma cc_bytes (s : MacOS.OSStatus) :
  MacOS.cc s =
    [MacOS.to_char ((U32.wrap s / 16777216) mod 256);
     MacOS.to_char ((U32.wrap s / 65536) mod 256);
     MacOS.to_char ((U32.wrap s / 256) mod 256);
     MacOS.to_char (U32.wrap s mod 256);
     0].
Proof.
  unfold MacOS.cc. rewrite !byte_of_word by lia.
  change (Z.land (U32.wrap s) 255) with (Z.land (U32.wrap s) (Z.ones 8)).
  rewrite Z.land_ones by lia. reflexivity.
Qed.

(** A status that spells four characters, each of them a 7-bit character
    that [isprint] accepts, is printed as those four characters, first
    character first, between quotes. *)
Theorem print_error_spells_four_char_code
  (isprint : Z -> bool) (where_ : string) (c0 c1 c2 c3 : Z) :
  1 <= c0 <= 127 -> 1 <= c1 <= 127 -> 1 <= c2 <= 127 -> 1 <= c3 <= 127 ->
  isprint c0 = true -> isprint c1 = true ->
  isprint c2 = true -> isprint c3 = true ->
  MacOS.print_error isprint where_
    (c0 * 2 ^ 24 + c1 * 2 ^ 16 + c2 * 2 ^ 8 + c3)
  = (where_ ++ ": OSStatus '"
       ++ String (ascii_of_N (Z.to_N c0))
            (String (ascii_of_N (Z.to_N c1))
               (String (ascii_of_N (Z.to_N c2))
                  (String (ascii_of_N (Z.to_N c3)) EmptyString)))
       ++ "'" ++ MacOS.newline)%string.
Proof.
  intros H0 H1 H2 H3 P0 P1 P2 P3.
  set (s := c0 * 2 ^ 24 + c1 * 2 ^ 16 + c2 * 2 ^ 8 + c3).
  assert (Hs : s = c0 * 16777216 + c1 * 65536 + c2 * 256 + c3) by reflexivity.
  assert (Hw : U32.wrap s = s).
  { apply wrap_small. unfold U32.in_range, U32.modulus. lia. }
  assert (Hcc : MacOS.cc s = [c0; c1; c2; c3; 0]).
  { rewrite cc_bytes, Hw.
    assert (E0 : (s / 16777216) mod 256 = c0) by (Z.div_mod_to_equations; lia).
    assert (E1 : (s / 65536) mod 256 = c1) by (Z.div_mod_to_equations; lia).
    assert (E2 : (s / 256) mod 256 = c2) by (Z.div_mod_to_equations; lia).
    assert (E3 : s mod 256 = c3) by (Z.div_mod_to_equations; lia).
    rewrite E0, E1, E2, E3. unfold MacOS.to_char.
    destruct (Z.ltb_spec c0 128), (Z.ltb_spec c1 128),
             (Z.ltb_spec c2 128), (Z.ltb_spec c3 128); try lia.
    reflexivity. }
  unfold MacOS.print_error. rewrite Hcc. cbn [nth].
  rewrite P0, P1, P2, P3. cbn [andb MacOS.c_str].
  destruct (Z.eqb_spec c0 0), (Z.eqb_spec c1 0),
           (Z.eqb_spec c2 0), (Z.eqb_spec c3 0); try lia.
  rewrite !Z.mod_small by lia. reflexivity.
Qed.

(** The code 'fmt?' of an unsupported stream format. *)
Lemma print_error_spells_four_char_code_witness :
  MacOS.print_error (fun c => (32 <=? c) && (c <=? 126)) "where" 1718449215
  = ("where: OSStatus 'fmt?'" ++ MacOS.newline)%string.
Proof.
  refine (print_error_spells_four_char_code
            (fun c => (32 <=? c) && (c <=? 126)) "where" 102 109 116 63
            _ _ _ _ _ _ _ _); try lia; reflexivity.
Defined.

(** With an [isprint] that accepts nothing outside 32..126, every negative
    status and every status below [2^29] is printed as a decimal number:
    its first byte is no printable character. *)
Theorem print_error_prints_small_codes_in_decimal
  (isprint : Z -> bool) (where_ : string) (s : MacOS.OSStatus) :
  (forall c, isprint c = true -> 32 <= c <= 126) ->
  - 2 ^ 31 <= s < 2 ^ 29 ->
  MacOS.print_error isprint where_ s
  = (where_ ++ ": OSStatus " ++ MacOS.decimal s ++ MacOS.newline)%string.
Proof.
  intros Hprint Hs. unfold MacOS.print_error. rewrite cc_bytes. cbn [nth].
  assert (Hno : isprint (MacOS.to_char ((U32.wrap s / 16777216) mod 256)) = false).
  { destruct (isprint _) eqn:E; [|reflexivity]. apply Hprint in E.
    exfalso. revert E. unfold MacOS.to_char, U32.wrap, U32.modulus.
    change (2 ^ 32) with 4294967296.
    change (2 ^ 31) with 2147483648 in Hs. change (2 ^ 29) with 536870912 in Hs.
    destruct (Z.ltb_spec ((s mod 4294967296 / 16777216) mod 256) 128);
      Z.div_mod_to_equations; lia. }
  rewrite Hno. reflexivity.
Qed.

(** [paramErr]. *)
Lemma print_error_prints_small_codes_in_decimal_witness :
  MacOS.print_error (fun c => (32 <=? c) && (c <=? 126)) "where" (-50)
  = ("where: OSStatus -50" ++ MacOS.newline)%string.
Proof.
  refine (print_error_prints_small_codes_in_decimal
            (fun c => (32 <=? c) && (c <=? 126)) "where" (-50) _ _).
  - intros c Hc. apply andb_prop in Hc. destruct Hc as [Ha Hb].
    apply Z.leb_le in Ha. apply Z.leb_le in Hb. lia.
  - lia.
Defined.

(** * The threads of the ALSA program *)

Lemma rounds_idle (g : FloatFIFO) (rs : list AlsaProgram.round) :
  idle g ->
  forall cap,
  exists cap' effs,
    AlsaProgram.rounds (AlsaProgram.mkThreads g cap AlsaProgram.fresh_buf) rs
      = Some (AlsaProgram.mkThreads g cap' AlsaProgram.fresh_buf, effs) /\
    Forall AlsaProgram.effect_silent effs.
Proof.
  intros Hidle. induction rs as [|rd rs IH]; intros cap.
  - exists cap, []. simpl. auto.
  - destruct rd as [frames data|frames]; cbn [AlsaProgram.rounds].
    + unfold AlsaProgram.capture_round. cbn [AlsaProgram.fifo AlsaProgram.capBuf
                                              AlsaProgram.playBuf].
      destruct (frames <? 0).
      * destruct (IH (AlsaProgram.written cap data)) as (cap' & effs & -> & Hsil).
        eexists _, _. split; [reflexivity|]. constructor; [exact I|exact Hsil].
      * rewrite alsa_push_eq, (push_idle g _ _ Hidle).
        2:{ pose proof (wrap_range frames) as [H0 _]. exact H0. }
        cbn [fmap option_fmap option_map fst snd].
        destruct (IH (AlsaProgram.written cap data)) as (cap' & effs & -> & Hsil).
        eexists _, _. split; [reflexivity|]. constructor; [exact I|exact Hsil].
    + unfold AlsaProgram.playback_round. cbn [AlsaProgram.fifo AlsaProgram.capBuf
                                               AlsaProgram.playBuf].
      rewrite alsa_pop_eq, (pop_idle g _ _ Hidle).
      2:{ unfold AlsaProgram.fresh_buf, AlsaProgram.BUFFER_FRAMES.
          rewrite length_replicate. lia. }
      cbn [fmap option_fmap option_map fst snd].
      assert (Hbuf : replicate (Z.to_nat AlsaProgram.BUFFER_FRAMES) silence
                       ++ drop (Z.to_nat AlsaProgram.BUFFER_FRAMES)
                               AlsaProgram.fresh_buf
                     = AlsaProgram.fresh_buf).
      { unfold AlsaProgram.fresh_buf. rewrite drop_ge, app_nil_r; [reflexivity|].
        rewrite length_replicate. lia. }
      rewrite Hbuf.
      destruct (IH cap) as (cap' & effs & -> & Hsil).
      eexists _, _. split; [reflexivity|]. constructor; [reflexivity|exact Hsil].
Qed.

(** The ALSA program as it stands plays silence: on the FIFO it constructs,
    whatever [snd_pcm_readi] and [snd_pcm_writei] return and write and in
    whatever order the two loops take their passes, no pass goes out of
    bounds, the FIFO never changes, and every period handed to
    [snd_pcm_writei] is 128 zero samples. *)
Theorem alsa_program_plays_silence (rs : list AlsaProgram.round) :
  exists g cap' effs,
    AlsaProgram.gFifo = Some g /\
    AlsaProgram.rounds
      (AlsaProgram.mkThreads g AlsaProgram.fresh_buf AlsaProgram.fresh_buf) rs
      = Some (AlsaProgram.mkThreads g cap' AlsaProgram.fresh_buf, effs) /\
    Forall AlsaProgram.effect_silent effs.
Proof.
  unfold AlsaProgram.gFifo. change (Z.shiftl 1 16) with 65536.
  destruct (FloatFIFO_new_pow2 16) as (g & Hg & _); [lia|].
  change (2 ^ 16) with 65536 in Hg. rewrite Hg.
  pose proof (FloatFIFO_new_idle _ _ Hg) as Hidle.
  destruct (rounds_idle g rs Hidle AlsaProgram.fresh_buf) as (cap' & effs & Hr & Hsil).
  exists g, cap', effs. auto.
Qed.
